(** * Discounted LQR / LQG solvers of [mushroom_rl/solvers/lqr.py]

    A shallow embedding of the NumPy code over an arbitrary field [F]
    (exact arithmetic), with MathComp matrices for the arrays whose shapes
    are consistent, and the theorems that settle the specification's claims
    about it.  Two further models show what exact arithmetic and typed
    shapes leave out: [Dyn] has arrays that carry their shape at run time,
    [Binary64] has the rounding of binary64 numbers.  The mouse callbacks
    of [mushroom_rl/utils/mujoco/viewer.py] come last. *)

From Stdlib Require Import PArith.
From Stdlib Require SpecFloat.
From HB Require Import structures.
From mathcomp Require Import ssreflect ssrfun ssrbool eqtype ssrnat seq choice.
From mathcomp Require Import div fintype bigop finfun order.
From mathcomp Require Import ssralg ssrnum ssrint rat matrix.

Set Implicit Arguments.
Unset Strict Implicit.
Unset Printing Implicit Defensive.

Import GRing.Theory.
Local Open Scope ring_scope.

(** ** Row-major indexing

    NumPy stores a [p x r] array row by row: entry [(i, k)] sits at the flat
    position [i * r + k].  [reshape(-1)], [reshape(shape)] and [np.kron] all
    go through this correspondence. *)

Section RowMajor.

Variables p r : nat.

Fact flat_index_subproof (i : 'I_p) (k : 'I_r) : (i * r + k < p * r)%N.
Proof.
case: i => i /= lt_ip; case: k => k /= lt_kr.
apply: (@leq_trans (i.+1 * r)); first by rewrite mulSn addnC ltn_add2r.
by rewrite leq_mul2r lt_ip orbT.
Qed.

Definition flat_index (i : 'I_p) (k : 'I_r) : 'I_(p * r) :=
  Ordinal (flat_index_subproof i k).

Fact unflat_row_subproof (t : 'I_(p * r)) : (t %/ r < p)%N.
Proof.
case: t => t /=; case: r => [|r']; first by rewrite muln0.
by move=> lt_t; rewrite ltn_divLR.
Qed.

Fact unflat_col_subproof (t : 'I_(p * r)) : (t %% r < r)%N.
Proof.
case: t => t /=; case: r => [|r']; first by rewrite muln0.
by move=> _; rewrite ltn_pmod.
Qed.

Definition unflat_row (t : 'I_(p * r)) : 'I_p := Ordinal (unflat_row_subproof t).
Definition unflat_col (t : 'I_(p * r)) : 'I_r := Ordinal (unflat_col_subproof t).

End RowMajor.

Section RowMajorTheory.

Variables p r : nat.

Lemma flat_indexK_row (i : 'I_p) (k : 'I_r) : unflat_row (flat_index i k) = i.
Proof.
apply: val_inj => /=; have lt_kr := ltn_ord k.
by rewrite divnMDl ?(leq_ltn_trans _ lt_kr) // divn_small // addn0.
Qed.

Lemma flat_indexK_col (i : 'I_p) (k : 'I_r) : unflat_col (flat_index i k) = k.
Proof. by apply: val_inj => /=; rewrite modnMDl modn_small. Qed.

Lemma unflatK (t : 'I_(p * r)) : flat_index (unflat_row t) (unflat_col t) = t.
Proof. by apply: val_inj => /=; rewrite -divn_eq. Qed.

Lemma flat_index_bij :
  bijective (fun ik : 'I_p * 'I_r => flat_index ik.1 ik.2).
Proof.
exists (fun t => (unflat_row t, unflat_col t)) => [[i k]|t] /=.
  by rewrite flat_indexK_row flat_indexK_col.
exact: unflatK.
Qed.

End RowMajorTheory.

(** ** The NumPy array operations used by the solver *)

Section ArrayOps.

Variable F : fieldType.

(** [X.reshape(-1)]: the rows of [X] one after the other. *)
Definition reshape_vec p r (X : 'M[F]_(p, r)) : 'cV[F]_(p * r) :=
  \col_t X (unflat_row t) (unflat_col t).

(** [v.reshape((p, r))] for a vector of length [p * r]. *)
Definition reshape_mx p r (v : 'cV[F]_(p * r)) : 'M[F]_(p, r) :=
  \matrix_(i, k) v (flat_index i k) 0.

(** [np.kron(X, Y)]: block [(i, j)] of the result is [X[i, j] * Y]. *)
Definition kron p q r s (X : 'M[F]_(p, q)) (Y : 'M[F]_(r, s)) :
    'M[F]_(p * r, q * s) :=
  \matrix_(t, u) (X (unflat_row t) (unflat_row u) *
                  Y (unflat_col t) (unflat_col u)).

Lemma reshape_vecK p r : cancel (@reshape_vec p r) (@reshape_mx p r).
Proof.
by move=> X; apply/matrixP=> i k; rewrite !mxE flat_indexK_row flat_indexK_col.
Qed.

Lemma reshape_mxK p r : cancel (@reshape_mx p r) (@reshape_vec p r).
Proof.
by move=> v; apply/colP=> t; rewrite !mxE unflatK.
Qed.

Lemma reshape_vec_inj p r : injective (@reshape_vec p r).
Proof. exact: can_inj (@reshape_vecK p r). Qed.

Lemma reshape_vecD p r (X Y : 'M[F]_(p, r)) :
  reshape_vec (X + Y) = reshape_vec X + reshape_vec Y.
Proof. by apply/colP=> t; rewrite !mxE. Qed.

Lemma reshape_vecN p r (X : 'M[F]_(p, r)) :
  reshape_vec (- X) = - reshape_vec X.
Proof. by apply/colP=> t; rewrite !mxE. Qed.

Lemma reshape_vec0 p r : reshape_vec (0 : 'M[F]_(p, r)) = 0.
Proof. by apply/colP=> t; rewrite !mxE. Qed.

Lemma reshape_vecZ p r a (X : 'M[F]_(p, r)) :
  reshape_vec (a *: X) = a *: reshape_vec X.
Proof. by apply/colP=> t; rewrite !mxE. Qed.

Lemma reshape_mxD p r (u v : 'cV[F]_(p * r)) :
  reshape_mx (u + v) = reshape_mx u + reshape_mx v.
Proof. by apply/matrixP=> i k; rewrite !mxE. Qed.

Lemma reshape_mxN p r (u : 'cV[F]_(p * r)) :
  reshape_mx (- u) = - reshape_mx u.
Proof. by apply/matrixP=> i k; rewrite !mxE. Qed.

Lemma reshape_mx_delta p r (t : 'I_(p * r)) :
  reshape_mx (delta_mx t 0) = delta_mx (unflat_row t) (unflat_col t).
Proof.
apply/matrixP=> i k; rewrite !mxE eqxx andbT; congr (_%:R); congr nat_of_bool.
apply/eqP/andP=> [<-|[/eqP-> /eqP->]]; last by rewrite unflatK.
by rewrite flat_indexK_row flat_indexK_col.
Qed.

Lemma sum_flat_index q s (f : 'I_(q * s) -> F) :
  \sum_u f u = \sum_j \sum_l f (flat_index j l).
Proof.
rewrite pair_bigA /=.
by rewrite (reindex _ (onW_bij _ (flat_index_bij q s))).
Qed.

(** The identity behind the vectorised Lyapunov equation, for row-major
    flattening: [vec (X Z Y) = kron X Y^T vec Z]. *)
Lemma kron_reshape_vec p q s r
    (X : 'M[F]_(p, q)) (Z : 'M[F]_(q, s)) (Y : 'M[F]_(s, r)) :
  kron X Y^T *m reshape_vec Z = reshape_vec (X *m Z *m Y).
Proof.
apply/colP=> t; rewrite !mxE sum_flat_index.
rewrite exchange_big /=; apply: eq_bigr => l _.
rewrite !mxE big_distrl /=; apply: eq_bigr => j _.
by rewrite !mxE flat_indexK_row flat_indexK_col mulrAC.
Qed.

Lemma kronDl p q r s (X1 X2 : 'M[F]_(p, q)) (Y : 'M[F]_(r, s)) :
  kron (X1 + X2) Y = kron X1 Y + kron X2 Y.
Proof. by apply/matrixP=> t u; rewrite !mxE mulrDl. Qed.

Lemma kronDr p q r s (X : 'M[F]_(p, q)) (Y1 Y2 : 'M[F]_(r, s)) :
  kron X (Y1 + Y2) = kron X Y1 + kron X Y2.
Proof. by apply/matrixP=> t u; rewrite !mxE mulrDr. Qed.

Lemma kronNl p q r s (X : 'M[F]_(p, q)) (Y : 'M[F]_(r, s)) :
  kron (- X) Y = - kron X Y.
Proof. by apply/matrixP=> t u; rewrite !mxE mulNr. Qed.

Lemma kronNr p q r s (X : 'M[F]_(p, q)) (Y : 'M[F]_(r, s)) :
  kron X (- Y) = - kron X Y.
Proof. by apply/matrixP=> t u; rewrite !mxE mulrN. Qed.

Lemma kron0l p q r s (Y : 'M[F]_(r, s)) : kron (0 : 'M[F]_(p, q)) Y = 0.
Proof. by apply/matrixP=> t u; rewrite !mxE mul0r. Qed.

End ArrayOps.

(** ** Failures

    The solver has no [try]/[except]: a call either returns its value or
    stops with the exception of the operation that failed.
    - [LinAlgError]: [np.linalg.inv] or [np.linalg.solve] on a singular
      (or non-square) matrix.
    - [ValueError]: a NumPy operation on arrays whose shapes it cannot
      combine.  It needs arrays that carry their shape at run time, as in
      the module [Dyn] below; matrices typed by their dimensions cannot
      raise it.
    - [ZeroDivisionError]: a division of Python floats by zero.
    - [NonFinite] is not a Python exception: a NumPy scalar divided by zero
      gives [inf] or [nan] with a warning, and the call goes on and returns.
      What it returns holds [inf] or [nan], for which the field has no
      number: [NonFinite] stands for that returned value.
    - [FuelExhausted] is not a Python exception: it marks a [while] loop
      cut off by the recursion bound of its model, and is shown below never
      to come out of [solve_lqr_linear].

    [LinAlgError] is modelled in exact arithmetic: over the field a matrix
    is singular or it is not.  On binary64 numbers NumPy raises when the
    elimination meets a pivot that is exactly zero after rounding; the
    module [Binary64] below shows the difference. *)

Inductive exception :=
  LinAlgError | ValueError | ZeroDivisionError | NonFinite | FuelExhausted.

Inductive result (T : Type) :=
  | Ok (v : T)
  | Raise (e : exception).

Arguments Ok {T} v.
Arguments Raise {T} e.

Definition bind (T U : Type) (c : result T) (k : T -> result U) : result U :=
  match c with
  | Ok v => k v
  | Raise e => Raise e
  end.

Notation "'let!' x ':=' c 'in' k" := (bind c (fun x => k))
  (at level 200, x name, c at level 100, k at level 200,
   right associativity,
   format "'[v' 'let!'  x  ':='  c  'in' '/' k ']'").

Lemma bind_Ok (T U : Type) (v : T) (k : T -> result U) : bind (Ok v) k = k v.
Proof. by []. Qed.

Lemma bind_Raise (T U : Type) e (k : T -> result U) : bind (Raise e) k = Raise e.
Proof. by []. Qed.

(** What a call ends with: [None] for a returned value of the field. *)
Definition failure (T : Type) (c : result T) : option exception :=
  match c with
  | Ok _ => None
  | Raise e => Some e
  end.

(** ** The problem descriptor: the attributes read by [_parse_lqr] *)

Module MDPInfo.
Record t (F : Type) := Make { gamma : F }.
End MDPInfo.

Module LQR.
Section Def.
Variables (F : fieldType) (n m : nat).
Record t := Make {
  A : 'M[F]_n;
  B : 'M[F]_(n, m);
  Q : 'M[F]_n;
  R : 'M[F]_m;
  info : MDPInfo.t F
}.
End Def.
End LQR.

(** ** The solver *)

Section Solver.

Variable F : fieldType.

Section LinAlg.

Variable k : nat.

(** [np.linalg.inv(X)], in exact arithmetic. *)
Definition linalg_inv (X : 'M[F]_k) : result 'M[F]_k :=
  if X \in unitmx then Ok (invmx X) else Raise LinAlgError.

(** [np.linalg.solve(M, b)] for a one-dimensional right-hand side, in exact
    arithmetic. *)
Definition linalg_solve (M : 'M[F]_k) (b : 'cV[F]_k) : result 'cV[F]_k :=
  if M \in unitmx then Ok (invmx M *m b) else Raise LinAlgError.

(** [u / v] on Python floats. *)
Definition truediv (u v : F) : result F :=
  if v == 0 then Raise ZeroDivisionError else Ok (u / v).

(** [u / v] for a NumPy scalar [u] (what [np.trace] returns, or its product
    with a float) and a Python float [v]. *)
Definition np_truediv (u v : F) : result F :=
  if v == 0 then Raise NonFinite else Ok (u / v).

(** [d[i] = v] on a one-dimensional array. *)
Definition setitem (d : 'cV[F]_k) (i : 'I_k) (v : F) : 'cV[F]_k :=
  \col_j (if j == i then v else d j 0).

(** [x.T @ X @ y] for one-dimensional [x] and [y]: a scalar. *)
Definition item (X : 'M[F]_1) : F := X 0 0.

End LinAlg.

(** [for i in range(len(idx)): s = body(i, s)] *)
Fixpoint for_range (I T : Type) (idx : seq I) (body : I -> T -> result T)
    (s : T) : result T :=
  if idx is i :: idx' then
    let! s' := body i s in for_range idx' body s'
  else Ok s.

Variables n m : nat.

Implicit Types (lqr : LQR.t F n m) (K : 'M[F]_(m, n)) (P : 'M[F]_n).
Implicit Types (Sigma : 'M[F]_m) (x : 'cV[F]_n) (z : 'cV[F]_(n + m)).

Definition _parse_lqr lqr :=
  (LQR.A lqr, LQR.B lqr, LQR.Q lqr, LQR.R lqr, MDPInfo.gamma (LQR.info lqr)).

Definition _compute_riccati_rhs (A : 'M[F]_n) (B : 'M[F]_(n, m)) (Q : 'M[F]_n)
    (R : 'M[F]_m) (gamma : F) K P : 'M[F]_n :=
  Q + gamma *: (A^T *m P *m A - K^T *m B^T *m P *m A - A^T *m P *m B *m K
                + K^T *m B^T *m P *m B *m K)
  + K^T *m R *m K.

Definition _compute_riccati_gain P (A : 'M[F]_n) (B : 'M[F]_(n, m))
    (R : 'M[F]_m) (gamma : F) : result 'M[F]_(m, n) :=
  let! Minv := linalg_inv (R + gamma *: (B^T *m P *m B)) in
  Ok (gamma *: Minv *m B^T *m P *m A).

Definition _compute_lqr_intermediate_results K (A : 'M[F]_n)
    (B : 'M[F]_(n, m)) (Q : 'M[F]_n) (R : 'M[F]_m) (gamma : F) :
    'M[F]_n * 'M[F]_(n * n) :=
  let L := Q + K^T *m R *m K in
  let kb := K^T *m B^T in
  let M := 1%:M - gamma *: (kron A^T A^T - kron A^T kb - kron kb A^T
                            + kron kb kb) in
  (L, M).

Definition _compute_lqr_intermediate_results_diff K (A : 'M[F]_n)
    (B : 'M[F]_(n, m)) (R : 'M[F]_m) (gamma : F) (i : 'I_(m * n)) :
    'M[F]_n * 'M[F]_(n * n) :=
  let vec_dKi := setitem (0 : 'cV[F]_(m * n)) i 1 in
  let dKi : 'M[F]_(m, n) := reshape_mx vec_dKi in
  let kb := K^T *m B^T in
  let dkb := dKi^T *m B^T in
  let dL := dKi^T *m R *m K + K^T *m R *m dKi in
  let dM := gamma *: (kron A^T dkb + kron dkb A^T - kron dkb kb
                      - kron kb dkb) in
  (dL, dM).

(** The [while it < max_iterations] loop of [solve_lqr_linear], on its
    state [(it, P, K)]; [fuel] bounds the number of tests of the guard. *)
Fixpoint riccati_while (fuel : nat) (A : 'M[F]_n) (B : 'M[F]_(n, m))
    (Q : 'M[F]_n) (R : 'M[F]_m) (gamma : F) (max_iterations : int)
    (it : int) P K : result (int * 'M[F]_n * 'M[F]_(m, n)) :=
  if fuel is fuel'.+1 then
    if (it < max_iterations)%R then
      let P1 := _compute_riccati_rhs A B Q R gamma K P in
      let! K1 := _compute_riccati_gain P1 A B R gamma in
      riccati_while fuel' A B Q R gamma max_iterations (it + 1) P1 K1
    else Ok (it, P, K)
  else Raise FuelExhausted.

Definition solve_lqr_linear lqr (max_iterations : int) :
    result 'M[F]_(m, n) :=
  let '(A, B, Q, R, gamma) := _parse_lqr lqr in
  let P : 'M[F]_n := 1%:M in
  let! K := _compute_riccati_gain P A B R gamma in
  let it : int := 0 in
  let! s := riccati_while `|max_iterations|%N.+1 A B Q R gamma
              max_iterations it P K in
  Ok s.2.

Definition compute_lqr_P lqr K : result 'M[F]_n :=
  let '(A, B, Q, R, gamma) := _parse_lqr lqr in
  let '(L, M) := _compute_lqr_intermediate_results K A B Q R gamma in
  let! vec_P := linalg_solve M (reshape_vec L) in
  Ok (reshape_mx vec_P).

Definition compute_lqr_V x lqr K : result F :=
  let! P := compute_lqr_P lqr K in
  Ok (item ((- x^T) *m P *m x)).

Definition compute_lqg_V x lqr K Sigma : result F :=
  let! P := compute_lqr_P lqr K in
  let '(A, B, Q, R, gamma) := _parse_lqr lqr in
  let! c := np_truediv (\tr (Sigma *m (R + gamma *: B^T *m P *m B)))
                    (1 - gamma) in
  Ok (item ((- x^T) *m P *m x) - c).

Definition _compute_lqr_Q_matrix lqr K : result 'M[F]_(n + m) :=
  let '(A, B, Q, R, gamma) := _parse_lqr lqr in
  let! P := compute_lqr_P lqr K in
  let M := block_mx (Q + gamma *: A^T *m P *m A) (gamma *: A^T *m P *m B)
                    (gamma *: B^T *m P *m A) (R + gamma *: B^T *m P *m B) in
  Ok M.

Definition _compute_lqg_Q_additional_term lqr K Sigma : result F :=
  let '(A, B, Q, R, gamma) := _parse_lqr lqr in
  let! P := compute_lqr_P lqr K in
  let! g := truediv gamma (1 - gamma) in
  let b := g * \tr (Sigma *m (R + gamma *: B^T *m P *m B)) in
  Ok b.

Definition compute_lqr_Q z lqr K : result F :=
  let! M := _compute_lqr_Q_matrix lqr K in
  Ok (item ((- z^T) *m M *m z)).

Definition compute_lqg_Q z lqr K Sigma : result F :=
  let! M := _compute_lqr_Q_matrix lqr K in
  let! b := _compute_lqg_Q_additional_term lqr K Sigma in
  Ok (item ((- z^T) *m M *m z) - b).

(** The body of the [for i in range(n_elems)] loop of
    [compute_lqg_gradient], on the array [dJ]. *)
Definition lqg_gradient_body x K Sigma (A : 'M[F]_n) (B : 'M[F]_(n, m))
    (R : 'M[F]_m) (gamma : F) (L : 'M[F]_n) (M Minv : 'M[F]_(n * n))
    (i : 'I_(m * n)) (dJ : 'cV[F]_(m * n)) : result 'cV[F]_(m * n) :=
  let '(dLi, dMi) := _compute_lqr_intermediate_results_diff K A B R gamma i in
  let! sol := linalg_solve M (reshape_vec dLi) in
  let vec_dPi := (- Minv) *m dMi *m Minv *m reshape_vec L + sol in
  let dPi : 'M[F]_n := reshape_mx vec_dPi in
  let! c := np_truediv (gamma * \tr (Sigma *m B^T *m dPi *m B))
                       (1 - gamma) in
  Ok (setitem dJ i (item (x^T *m dPi *m x) + c)).

Definition compute_lqg_gradient x lqr K Sigma : result 'cV[F]_(m * n) :=
  let '(A, B, Q, R, gamma) := _parse_lqr lqr in
  let '(L, M) := _compute_lqr_intermediate_results K A B Q R gamma in
  let! Minv := linalg_inv M in
  let dJ0 : 'cV[F]_(m * n) := 0 in
  let! dJ := for_range (enum 'I_(m * n))
               (lqg_gradient_body x K Sigma A B R gamma L M Minv) dJ0 in
  Ok (- dJ).

End Solver.

(** ** The vectorised Lyapunov system *)

Section Lyapunov.

Variables (F : fieldType) (n m : nat).

Implicit Types (lqr : LQR.t F n m) (K : 'M[F]_(m, n)) (P X : 'M[F]_n).

(** The matrices [L] and [M] of a problem and a gain, spelt out. *)
Definition lyapunov_L lqr K : 'M[F]_n :=
  LQR.Q lqr + K^T *m LQR.R lqr *m K.

Definition lyapunov_M lqr K : 'M[F]_(n * n) :=
  let A := LQR.A lqr in
  let B := LQR.B lqr in
  let gamma := MDPInfo.gamma (LQR.info lqr) in
  1%:M - gamma *: (kron A^T A^T - kron A^T (K^T *m B^T)
                   - kron (K^T *m B^T) A^T
                   + kron (K^T *m B^T) (K^T *m B^T)).

(** The closed-loop matrix [A - B K]. *)
Definition closed_loop lqr K : 'M[F]_n := LQR.A lqr - LQR.B lqr *m K.

(** The matrix returned by [compute_lqr_P] when there is one. *)
Definition value_matrix lqr K : 'M[F]_n :=
  reshape_mx (invmx (lyapunov_M lqr K) *m reshape_vec (lyapunov_L lqr K)).

Lemma intermediate_resultsE lqr K :
  _compute_lqr_intermediate_results K (LQR.A lqr) (LQR.B lqr) (LQR.Q lqr)
    (LQR.R lqr) (MDPInfo.gamma (LQR.info lqr))
  = (lyapunov_L lqr K, lyapunov_M lqr K).
Proof. by []. Qed.

Lemma kron_mul_vec p q r s (U : 'M[F]_(p, q)) (V : 'M[F]_(r, s))
    (Z : 'M[F]_(q, s)) :
  kron U V *m reshape_vec Z = reshape_vec (U *m Z *m V^T).
Proof. by rewrite -{1}[V]trmxK kron_reshape_vec. Qed.

Lemma closed_loop_kron lqr K :
  let A := LQR.A lqr in
  let kb := K^T *m (LQR.B lqr)^T in
  kron A^T A^T - kron A^T kb - kron kb A^T + kron kb kb
  = kron (closed_loop lqr K)^T (closed_loop lqr K)^T.
Proof.
rewrite /closed_loop /= linearB /= trmx_mul.
rewrite kronDl kronDr kronDr !kronNl !kronNr opprK.
by rewrite addrA.
Qed.

Lemma lyapunov_M_closed_loop lqr K :
  lyapunov_M lqr K
  = 1%:M - MDPInfo.gamma (LQR.info lqr)
           *: kron (closed_loop lqr K)^T (closed_loop lqr K)^T.
Proof. by rewrite /lyapunov_M /= closed_loop_kron. Qed.

(** [M vec X] is the flattening of [X - gamma (A - B K)^T X (A - B K)]. *)
Lemma lyapunov_M_vec lqr K X :
  lyapunov_M lqr K *m reshape_vec X
  = reshape_vec (X - MDPInfo.gamma (LQR.info lqr)
                     *: ((closed_loop lqr K)^T *m X *m closed_loop lqr K)).
Proof.
rewrite lyapunov_M_closed_loop mulmxBl mul1mx -scalemxAl kron_mul_vec trmxK.
by rewrite reshape_vecD reshape_vecN reshape_vecZ.
Qed.

(** What [compute_lqr_P] returns. *)
Lemma compute_lqr_PE lqr K :
  compute_lqr_P lqr K
  = if lyapunov_M lqr K \in unitmx
    then Ok (reshape_mx (invmx (lyapunov_M lqr K)
                         *m reshape_vec (lyapunov_L lqr K)))
    else Raise LinAlgError.
Proof.
rewrite /compute_lqr_P /_parse_lqr intermediate_resultsE /linalg_solve.
by case: ifP.
Qed.

Lemma compute_lqr_P_unit lqr K :
  lyapunov_M lqr K \in unitmx -> compute_lqr_P lqr K = Ok (value_matrix lqr K).
Proof. by rewrite compute_lqr_PE => ->. Qed.

Lemma compute_lqr_P_sing lqr K :
  lyapunov_M lqr K \notin unitmx -> compute_lqr_P lqr K = Raise LinAlgError.
Proof. by rewrite compute_lqr_PE => /negPf->. Qed.

Lemma lyapunov_solution lqr K P :
  lyapunov_M lqr K \in unitmx ->
  compute_lqr_P lqr K = Ok P ->
  P = lyapunov_L lqr K
      + MDPInfo.gamma (LQR.info lqr)
        *: ((closed_loop lqr K)^T *m P *m closed_loop lqr K).
Proof.
move=> unitM; rewrite compute_lqr_PE unitM => -[<-].
set P0 := reshape_mx _.
have /reshape_vec_inj <- :
    reshape_vec (P0 - MDPInfo.gamma (LQR.info lqr)
                      *: ((closed_loop lqr K)^T *m P0 *m closed_loop lqr K))
    = reshape_vec (lyapunov_L lqr K).
  by rewrite -lyapunov_M_vec reshape_mxK mulKVmx.
by rewrite subrK.
Qed.

(** Conversely a solution of the Lyapunov equation is the one returned. *)
Lemma lyapunov_unique lqr K X :
  lyapunov_M lqr K \in unitmx ->
  X = lyapunov_L lqr K
      + MDPInfo.gamma (LQR.info lqr)
        *: ((closed_loop lqr K)^T *m X *m closed_loop lqr K) ->
  compute_lqr_P lqr K = Ok X.
Proof.
move=> unitM eqX; rewrite compute_lqr_PE unitM; congr Ok.
apply: reshape_vec_inj; rewrite reshape_mxK; apply: (canLR (mulKmx unitM)).
by rewrite lyapunov_M_vec {1}eqX addrK.
Qed.

(** A nonzero matrix that the discounted closed loop maps to itself is in
    the kernel of [M]. *)
Lemma lyapunov_M_fixed_sing lqr K X :
  X != 0 ->
  X = MDPInfo.gamma (LQR.info lqr)
      *: ((closed_loop lqr K)^T *m X *m closed_loop lqr K) ->
  lyapunov_M lqr K \notin unitmx.
Proof.
move=> X0 fixX; apply/negP=> unitM.
have MX0 : lyapunov_M lqr K *m reshape_vec X = 0.
  by rewrite lyapunov_M_vec -fixX subrr reshape_vec0.
have : reshape_vec X = reshape_vec 0.
  by rewrite -(mulKmx unitM (reshape_vec X)) MX0 mulmx0 reshape_vec0.
by move/reshape_vec_inj=> X0'; rewrite X0' eqxx in X0.
Qed.

End Lyapunov.

(** ** A concrete problem

    The scalar instance of the specification: [A = B = Q = R = [[1]]] and
    [gamma = 9/10], over the rationals, with the gain [K = [[1]]] that
    drives the state to zero in one step. *)

Definition scalar_lqr : LQR.t rat 1 1 :=
  LQR.Make 1%:M 1%:M 1%:M 1%:M (MDPInfo.Make (9%:Q / 10%:Q)).

Definition scalar_K : 'M[rat]_1 := 1%:M.

Definition scalar_x : 'cV[rat]_1 := 1%:M.

Definition scalar_Sigma : 'M[rat]_1 := 1%:M.

Section ValueMatrix.

Variables (F : fieldType) (n m : nat).

Implicit Types (lqr : LQR.t F n m) (K : 'M[F]_(m, n)) (P : 'M[F]_n).

Lemma lyapunov_M_deadbeat lqr K :
  closed_loop lqr K = 0 -> lyapunov_M lqr K = 1%:M.
Proof.
by move=> C0; rewrite lyapunov_M_closed_loop C0 trmx0 kron0l scaler0 subr0.
Qed.

Lemma lyapunov_L_sym lqr K :
  (LQR.Q lqr)^T = LQR.Q lqr -> (LQR.R lqr)^T = LQR.R lqr ->
  (lyapunov_L lqr K)^T = lyapunov_L lqr K.
Proof.
move=> symQ symR.
by rewrite /lyapunov_L linearD /= !trmx_mul trmxK symQ symR mulmxA.
Qed.

(** C1. Lyapunov consistency: when the system matrix [M] of the problem and
    the gain [K] is nonsingular, [compute_lqr_P] returns a matrix [P] with
    [P = Q + K^T R K + gamma (A - B K)^T P (A - B K)]. *)
Theorem compute_lqr_P_lyapunov lqr K :
  lyapunov_M lqr K \in unitmx ->
  exists2 P, compute_lqr_P lqr K = Ok P
    & P = LQR.Q lqr + K^T *m LQR.R lqr *m K
          + MDPInfo.gamma (LQR.info lqr)
            *: ((LQR.A lqr - LQR.B lqr *m K)^T *m P
                *m (LQR.A lqr - LQR.B lqr *m K)).
Proof.
move=> unitM; have eqP := compute_lqr_P_unit unitM.
exists (value_matrix lqr K) => //.
exact: lyapunov_solution unitM eqP.
Qed.

(** C6. Symmetry: when [Q] and [R] are symmetric and [M] is nonsingular,
    the matrix returned by [compute_lqr_P] is symmetric. *)
Theorem compute_lqr_P_symmetric lqr K :
  (LQR.Q lqr)^T = LQR.Q lqr -> (LQR.R lqr)^T = LQR.R lqr ->
  lyapunov_M lqr K \in unitmx ->
  exists2 P, compute_lqr_P lqr K = Ok P & P^T = P.
Proof.
move=> symQ symR unitM.
have eqP := compute_lqr_P_unit unitM.
have lyapP := lyapunov_solution unitM eqP.
set P := value_matrix lqr K in eqP lyapP; exists P => //.
suff: compute_lqr_P lqr K = Ok P^T by rewrite eqP => -[].
apply: lyapunov_unique => //.
rewrite -(lyapunov_L_sym K symQ symR) -/(closed_loop lqr K).
rewrite -[in RHS](trmxK (closed_loop lqr K)) -!trmx_mul mulmxA trmxK.
by rewrite -linearZ /= -linearD /= {1}lyapP.
Qed.

End ValueMatrix.

Lemma scalar_closed_loop : closed_loop scalar_lqr scalar_K = 0.
Proof. by rewrite /closed_loop /= mulmx1 subrr. Qed.

Lemma scalar_M_unit : lyapunov_M scalar_lqr scalar_K \in unitmx.
Proof. by rewrite (lyapunov_M_deadbeat scalar_closed_loop) unitmx1. Qed.

Lemma scalar_gamma_neq1 : MDPInfo.gamma (LQR.info scalar_lqr) != 1.
Proof. by []. Qed.

Lemma compute_lqr_P_lyapunov_witness :
  lyapunov_M scalar_lqr scalar_K \in unitmx
  /\ exists2 P, compute_lqr_P scalar_lqr scalar_K = Ok P
       & P = LQR.Q scalar_lqr + scalar_K^T *m LQR.R scalar_lqr *m scalar_K
             + MDPInfo.gamma (LQR.info scalar_lqr)
               *: ((LQR.A scalar_lqr - LQR.B scalar_lqr *m scalar_K)^T *m P
                   *m (LQR.A scalar_lqr - LQR.B scalar_lqr *m scalar_K)).
Proof.
split; first exact: scalar_M_unit.
exact: (compute_lqr_P_lyapunov scalar_M_unit).
Defined.

Lemma compute_lqr_P_symmetric_witness :
  [/\ (LQR.Q scalar_lqr)^T = LQR.Q scalar_lqr,
      (LQR.R scalar_lqr)^T = LQR.R scalar_lqr,
      lyapunov_M scalar_lqr scalar_K \in unitmx
    & exists2 P, compute_lqr_P scalar_lqr scalar_K = Ok P & P^T = P].
Proof.
have symQ : (LQR.Q scalar_lqr)^T = LQR.Q scalar_lqr by rewrite /= trmx1.
have symR : (LQR.R scalar_lqr)^T = LQR.R scalar_lqr by rewrite /= trmx1.
split=> //; first exact: scalar_M_unit.
exact: (compute_lqr_P_symmetric symQ symR scalar_M_unit).
Defined.

(** ** The evaluators *)

Section Evaluators.

Variables (F : fieldType) (n m : nat).

Implicit Types (lqr : LQR.t F n m) (K : 'M[F]_(m, n)) (P : 'M[F]_n).
Implicit Types (Sigma : 'M[F]_m) (x : 'cV[F]_n) (z : 'cV[F]_(n + m)).

(** The block matrix of the action-value function for a value matrix [P]. *)
Definition Q_matrix lqr P : 'M[F]_(n + m) :=
  let A := LQR.A lqr in
  let B := LQR.B lqr in
  let gamma := MDPInfo.gamma (LQR.info lqr) in
  block_mx (LQR.Q lqr + gamma *: A^T *m P *m A) (gamma *: A^T *m P *m B)
           (gamma *: B^T *m P *m A) (LQR.R lqr + gamma *: B^T *m P *m B).

Lemma truediv_neq0 (u v : F) : v != 0 -> truediv u v = Ok (u / v).
Proof. by rewrite /truediv => /negPf->. Qed.

Lemma np_truediv_neq0 (u v : F) : v != 0 -> np_truediv u v = Ok (u / v).
Proof. by rewrite /np_truediv => /negPf->. Qed.

Lemma one_minus_neq0 (g : F) : g != 1 -> 1 - g != 0.
Proof. by rewrite subr_eq0 eq_sym. Qed.

Lemma compute_lqr_V_unit x lqr K :
  lyapunov_M lqr K \in unitmx ->
  compute_lqr_V x lqr K = Ok (item ((- x^T) *m value_matrix lqr K *m x)).
Proof. by move=> unitM; rewrite /compute_lqr_V compute_lqr_P_unit. Qed.

Lemma compute_lqg_V_unit x lqr K Sigma :
  let gamma := MDPInfo.gamma (LQR.info lqr) in
  let P := value_matrix lqr K in
  lyapunov_M lqr K \in unitmx -> gamma != 1 ->
  compute_lqg_V x lqr K Sigma
  = Ok (item ((- x^T) *m P *m x)
        - \tr (Sigma *m (LQR.R lqr + gamma *: (LQR.B lqr)^T *m P *m LQR.B lqr))
          / (1 - gamma)).
Proof.
move=> gamma P unitM gamma1.
rewrite /compute_lqg_V compute_lqr_P_unit //= np_truediv_neq0 //.
exact: one_minus_neq0.
Qed.

Lemma compute_lqr_Q_matrix_unit lqr K :
  lyapunov_M lqr K \in unitmx ->
  _compute_lqr_Q_matrix lqr K = Ok (Q_matrix lqr (value_matrix lqr K)).
Proof. by move=> unitM; rewrite /_compute_lqr_Q_matrix /= compute_lqr_P_unit. Qed.

Lemma compute_lqr_Q_unit z lqr K :
  lyapunov_M lqr K \in unitmx ->
  compute_lqr_Q z lqr K
  = Ok (item ((- z^T) *m Q_matrix lqr (value_matrix lqr K) *m z)).
Proof. by move=> unitM; rewrite /compute_lqr_Q compute_lqr_Q_matrix_unit. Qed.

Lemma compute_lqg_Q_additional_term_unit lqr K Sigma :
  let gamma := MDPInfo.gamma (LQR.info lqr) in
  let P := value_matrix lqr K in
  lyapunov_M lqr K \in unitmx -> gamma != 1 ->
  _compute_lqg_Q_additional_term lqr K Sigma
  = Ok (gamma / (1 - gamma)
        * \tr (Sigma *m (LQR.R lqr + gamma *: (LQR.B lqr)^T *m P *m LQR.B lqr))).
Proof.
move=> gamma P unitM gamma1.
rewrite /_compute_lqg_Q_additional_term /= compute_lqr_P_unit //=.
by rewrite truediv_neq0 // one_minus_neq0.
Qed.

Lemma compute_lqg_Q_unit z lqr K Sigma :
  let gamma := MDPInfo.gamma (LQR.info lqr) in
  let P := value_matrix lqr K in
  lyapunov_M lqr K \in unitmx -> gamma != 1 ->
  compute_lqg_Q z lqr K Sigma
  = Ok (item ((- z^T) *m Q_matrix lqr P *m z)
        - gamma / (1 - gamma)
          * \tr (Sigma *m (LQR.R lqr
                           + gamma *: (LQR.B lqr)^T *m P *m LQR.B lqr))).
Proof.
move=> gamma P unitM gamma1.
rewrite /compute_lqg_Q compute_lqr_Q_matrix_unit //=.
by rewrite compute_lqg_Q_additional_term_unit.
Qed.



(** At the policy's own action [u = - K x], the quadratic form of the
    action-value matrix is the one-step Bellman expansion of [x^T P x]. *)
Lemma Q_matrix_policy lqr K P x :
  (col_mx x (- (K *m x)))^T *m Q_matrix lqr P *m col_mx x (- (K *m x))
  = x^T *m (lyapunov_L lqr K
            + MDPInfo.gamma (LQR.info lqr)
              *: ((closed_loop lqr K)^T *m P *m closed_loop lqr K)) *m x.
Proof.
rewrite /Q_matrix /lyapunov_L /closed_loop /=.
set A := LQR.A lqr; set B := LQR.B lqr; set Q := LQR.Q lqr; set R := LQR.R lqr.
set g := MDPInfo.gamma _.
rewrite tr_col_mx mul_row_block mul_row_col.
rewrite !(linearN, linearD, linearB) /= !trmx_mul.
rewrite !(mulmxDl, mulmxDr, mulmxBl, mulmxBr, mulNmx, mulmxN, scalerDr,
          scalerBr, scalerN, opprK, opprD) /=.
rewrite -!scalemxAl -!scalemxAr -!scalemxAl !mulmxA !addrA.
congr (_ + _); rewrite addrAC; congr (_ + _); rewrite addrAC; congr (_ + _).
by rewrite addrAC.
Qed.

(** C4. Value/Q consistency: at the stacked vector [z = [x; u]] with
    [u = - K x], [compute_lqr_Q] returns the value of [compute_lqr_V] at
    [x]. *)
Theorem compute_lqr_Q_policy_action x lqr K :
  lyapunov_M lqr K \in unitmx ->
  exists2 v, compute_lqr_V x lqr K = Ok v
    & compute_lqr_Q (col_mx x (- (K *m x))) lqr K = Ok v.
Proof.
move=> unitM; exists (item ((- x^T) *m value_matrix lqr K *m x)).
  exact: compute_lqr_V_unit.
rewrite compute_lqr_Q_unit //; congr (Ok (item _)).
rewrite [in RHS](lyapunov_solution unitM (compute_lqr_P_unit unitM)).
by rewrite !mulNmx Q_matrix_policy.
Qed.

End Evaluators.

Lemma compute_lqr_Q_policy_action_witness :
  lyapunov_M scalar_lqr scalar_K \in unitmx
  /\ exists2 v, compute_lqr_V scalar_x scalar_lqr scalar_K = Ok v
       & compute_lqr_Q (col_mx scalar_x (- (scalar_K *m scalar_x)))
           scalar_lqr scalar_K = Ok v.
Proof.
split; first exact: scalar_M_unit.
exact: (compute_lqr_Q_policy_action scalar_x scalar_M_unit).
Defined.



(** ** The Riccati iteration *)

Section Riccati.

Variables (F : fieldType) (n m : nat).

Implicit Types (lqr : LQR.t F n m) (K : 'M[F]_(m, n)) (P : 'M[F]_n).

(** The matrix inverted by the gain step at [P]: [R + gamma B^T P B]. *)
Definition riccati_denominator lqr P : 'M[F]_m :=
  LQR.R lqr + MDPInfo.gamma (LQR.info lqr) *: ((LQR.B lqr)^T *m P *m LQR.B lqr).

(** The gain of the specification at [P]:
    [gamma (R + gamma B^T P B)^-1 B^T P A]. *)
Definition riccati_gain lqr P : 'M[F]_(m, n) :=
  MDPInfo.gamma (LQR.info lqr)
  *: (invmx (riccati_denominator lqr P) *m ((LQR.B lqr)^T *m P *m LQR.A lqr)).

(** One Riccati update of the specification: the gain from the current [P],
    then [P' = Q + gamma (A^T P A - K^T B^T P A - A^T P B K + K^T B^T P B K)
    + K^T R K]. *)
Definition riccati_update lqr P : 'M[F]_n :=
  let A := LQR.A lqr in
  let B := LQR.B lqr in
  let K := riccati_gain lqr P in
  LQR.Q lqr
  + MDPInfo.gamma (LQR.info lqr)
    *: (A^T *m P *m A - K^T *m B^T *m P *m A - A^T *m P *m B *m K
        + K^T *m B^T *m P *m B *m K)
  + K^T *m LQR.R lqr *m K.

(** The value matrix after [k] updates from [P0 = I]. *)
Definition riccati_P lqr (k : nat) : 'M[F]_n := iter k (riccati_update lqr) 1%:M.

Lemma compute_riccati_gainE lqr P :
  _compute_riccati_gain P (LQR.A lqr) (LQR.B lqr) (LQR.R lqr)
    (MDPInfo.gamma (LQR.info lqr))
  = if riccati_denominator lqr P \in unitmx then Ok (riccati_gain lqr P)
    else Raise LinAlgError.
Proof.
rewrite /_compute_riccati_gain /linalg_inv -/(riccati_denominator lqr P).
by case: ifP => //= _; rewrite /riccati_gain -!scalemxAl !mulmxA.
Qed.

Lemma compute_riccati_rhsE lqr P :
  _compute_riccati_rhs (LQR.A lqr) (LQR.B lqr) (LQR.Q lqr) (LQR.R lqr)
    (MDPInfo.gamma (LQR.info lqr)) (riccati_gain lqr P) P
  = riccati_update lqr P.
Proof. by []. Qed.

(** The loop entered at [it = j] with [d] iterations left runs them all. *)
Lemma riccati_while_iter lqr (d : nat) :
  forall (fuel j : nat) P, (d < fuel)%N ->
  riccati_while fuel (LQR.A lqr) (LQR.B lqr) (LQR.Q lqr) (LQR.R lqr)
    (MDPInfo.gamma (LQR.info lqr)) (j + d)%:Z j%:Z P (riccati_gain lqr P)
  = if all (fun i => riccati_denominator lqr (iter i (riccati_update lqr) P)
                     \in unitmx) (iota 1 d)
    then Ok ((j + d)%:Z, iter d (riccati_update lqr) P,
             riccati_gain lqr (iter d (riccati_update lqr) P))
    else Raise LinAlgError.
Proof.
elim: d => [|d IHd] [|fuel] j P //= lt_d.
  by rewrite addn0 ltz_nat ltnn.
rewrite ltz_nat -{1}[j]addn0 ltn_add2l /= compute_riccati_rhsE.
rewrite compute_riccati_gainE.
case: ifP => //= unitD.
have -> : j%:Z + 1 = j.+1%:Z by rewrite intS addrC.
rewrite -addSnnS IHd // -iterSr /=.
rewrite -[2%N]/(1 + 1)%N iotaDl all_map.
congr (if _ then _ else _); apply: eq_all => i /=.
by rewrite add0n -iterS iterSr.
Qed.


Lemma solve_lqr_linearE lqr (k : nat) :
  solve_lqr_linear lqr k%:Z
  = if all (fun i => riccati_denominator lqr (riccati_P lqr i) \in unitmx)
           (iota 0 k.+1)
    then Ok (riccati_gain lqr (riccati_P lqr k))
    else Raise LinAlgError.
Proof.
have loopE := @riccati_while_iter lqr k k.+1 0 1%:M (ltnSn k).
rewrite add0n in loopE.
rewrite /solve_lqr_linear /_parse_lqr compute_riccati_gainE.
rewrite [all _ _]/= -/(riccati_P lqr 0).
case: (riccati_denominator _ _ \in unitmx); last by rewrite bind_Raise.
by rewrite bind_Ok absz_nat loopE; case: ifP.
Qed.

(** C2. [solve_lqr_linear] with [max_iterations = k >= 0] runs the loop body
    exactly [k] times from [P0 = I]: the loop leaves with [it = k], with the
    matrix [P] after [k] Riccati updates and the gain computed from it, and
    that gain is what is returned.  The only other outcome is the
    [LinAlgError] of a gain step whose matrix is singular. *)
Theorem solve_lqr_linear_iterates lqr (k : nat) :
  let inv_ok i := riccati_denominator lqr (riccati_P lqr i) \in unitmx in
  riccati_while k.+1 (LQR.A lqr) (LQR.B lqr) (LQR.Q lqr) (LQR.R lqr)
    (MDPInfo.gamma (LQR.info lqr)) k%:Z 0 1%:M (riccati_gain lqr 1%:M)
  = (if all inv_ok (iota 1 k)
     then Ok (k%:Z, riccati_P lqr k, riccati_gain lqr (riccati_P lqr k))
     else Raise LinAlgError)
  /\ solve_lqr_linear lqr k%:Z
     = (if all inv_ok (iota 0 k.+1)
        then Ok (riccati_gain lqr (riccati_P lqr k))
        else Raise LinAlgError).
Proof.
move=> inv_ok; split; last exact: solve_lqr_linearE.
have := @riccati_while_iter lqr k k.+1 0 1%:M (ltnSn k).
by rewrite add0n.
Qed.

(** A negative budget behaves as the zero budget. *)
Lemma solve_lqr_linear_negative lqr (k : nat) :
  solve_lqr_linear lqr (Negz k) = solve_lqr_linear lqr 0.
Proof.
rewrite /solve_lqr_linear /_parse_lqr compute_riccati_gainE.
by case: ifP.
Qed.

(** C10. With [max_iterations = 0] and [R + gamma B^T B] invertible,
    [solve_lqr_linear] returns the gain of the identity initialisation,
    [gamma (R + gamma B^T B)^-1 B^T A]. *)
Theorem solve_lqr_linear_zero_iterations lqr :
  let gamma := MDPInfo.gamma (LQR.info lqr) in
  let B := LQR.B lqr in
  LQR.R lqr + gamma *: (B^T *m B) \in unitmx ->
  solve_lqr_linear lqr 0
  = Ok (gamma *: (invmx (LQR.R lqr + gamma *: (B^T *m B))
                  *m B^T *m LQR.A lqr)).
Proof.
move=> gamma B unitD.
rewrite /solve_lqr_linear /_parse_lqr /= /_compute_riccati_gain /linalg_inv.
by rewrite mulmx1 unitD /= mulmx1 -!scalemxAl.
Qed.

End Riccati.

Lemma scalar_riccati_unit :
  LQR.R scalar_lqr
  + MDPInfo.gamma (LQR.info scalar_lqr)
    *: ((LQR.B scalar_lqr)^T *m LQR.B scalar_lqr) \in unitmx.
Proof.
rewrite /= trmx1 mulmx1 scalemx1 -raddfD /= unitmxE det_scalar1.
by [].
Qed.

Lemma solve_lqr_linear_zero_iterations_witness :
  LQR.R scalar_lqr
  + MDPInfo.gamma (LQR.info scalar_lqr)
    *: ((LQR.B scalar_lqr)^T *m LQR.B scalar_lqr) \in unitmx
  /\ solve_lqr_linear scalar_lqr 0
     = Ok (MDPInfo.gamma (LQR.info scalar_lqr)
           *: (invmx (LQR.R scalar_lqr
                      + MDPInfo.gamma (LQR.info scalar_lqr)
                        *: ((LQR.B scalar_lqr)^T *m LQR.B scalar_lqr))
               *m (LQR.B scalar_lqr)^T *m LQR.A scalar_lqr)).
Proof.
split; first exact: scalar_riccati_unit.
exact: (solve_lqr_linear_zero_iterations scalar_riccati_unit).
Defined.

(** ** The gradient *)

Section Gradient.

Variables (F : fieldType) (n m : nat).

Implicit Types (lqr : LQR.t F n m) (K : 'M[F]_(m, n)) (P : 'M[F]_n).
Implicit Types (Sigma : 'M[F]_m) (x : 'cV[F]_n) (i : 'I_(m * n)).

(** The one-hot matrix [dK_i] of the entry of [K] at row-major position
    [i]. *)
Definition gradient_dK i : 'M[F]_(m, n) :=
  delta_mx (unflat_row i) (unflat_col i).

(** [dL_i = dK_i^T R K + K^T R dK_i]. *)
Definition gradient_dL lqr K i : 'M[F]_n :=
  (gradient_dK i)^T *m LQR.R lqr *m K + K^T *m LQR.R lqr *m gradient_dK i.

(** [dM_i = gamma (kron(A^T, dK_i^T B^T) + kron(dK_i^T B^T, A^T)
    - kron(dK_i^T B^T, K^T B^T) - kron(K^T B^T, dK_i^T B^T))]. *)
Definition gradient_dM lqr K i : 'M[F]_(n * n) :=
  let A := LQR.A lqr in
  let B := LQR.B lqr in
  let dK := gradient_dK i in
  MDPInfo.gamma (LQR.info lqr)
  *: (kron A^T (dK^T *m B^T) + kron (dK^T *m B^T) A^T
      - kron (dK^T *m B^T) (K^T *m B^T) - kron (K^T *m B^T) (dK^T *m B^T)).

(** [vec(dP_i) = - M^-1 dM_i M^-1 vec(L) + M^-1 vec(dL_i)]. *)
Definition gradient_dP lqr K i : 'M[F]_n :=
  let Minv := invmx (lyapunov_M lqr K) in
  reshape_mx (- (Minv *m gradient_dM lqr K i *m Minv
                 *m reshape_vec (lyapunov_L lqr K))
              + Minv *m reshape_vec (gradient_dL lqr K i)).

(** The [i]-th component before the final negation:
    [x^T dP_i x + gamma tr(Sigma B^T dP_i B) / (1 - gamma)]. *)
Definition gradient_entry x lqr K Sigma i : F :=
  let gamma := MDPInfo.gamma (LQR.info lqr) in
  let B := LQR.B lqr in
  let dP := gradient_dP lqr K i in
  item (x^T *m dP *m x) + gamma * \tr (Sigma *m B^T *m dP *m B) / (1 - gamma).

Lemma setitem_one_hot k (t : 'I_k) : setitem (0 : 'cV[F]_k) t 1 = delta_mx t 0.
Proof.
by apply/colP=> j; rewrite !mxE eqxx andbT; case: (j == t).
Qed.

Lemma intermediate_results_diffE lqr K i :
  _compute_lqr_intermediate_results_diff K (LQR.A lqr) (LQR.B lqr)
    (LQR.R lqr) (MDPInfo.gamma (LQR.info lqr)) i
  = (gradient_dL lqr K i, gradient_dM lqr K i).
Proof.
rewrite /_compute_lqr_intermediate_results_diff setitem_one_hot.
by rewrite reshape_mx_delta.
Qed.

Lemma lqg_gradient_bodyE x lqr K Sigma i (dJ : 'cV[F]_(m * n)) :
  lyapunov_M lqr K \in unitmx -> MDPInfo.gamma (LQR.info lqr) != 1 ->
  lqg_gradient_body x K Sigma (LQR.A lqr) (LQR.B lqr) (LQR.R lqr)
    (MDPInfo.gamma (LQR.info lqr)) (lyapunov_L lqr K) (lyapunov_M lqr K)
    (invmx (lyapunov_M lqr K)) i dJ
  = Ok (setitem dJ i (gradient_entry x lqr K Sigma i)).
Proof.
move=> unitM gamma1.
rewrite /lqg_gradient_body intermediate_results_diffE /linalg_solve unitM.
rewrite bind_Ok np_truediv_neq0 ?one_minus_neq0 // bind_Ok.
by rewrite /gradient_entry /gradient_dP /= !mulNmx.
Qed.

Lemma for_range_setitem k (f : 'I_k -> F)
    (body : 'I_k -> 'cV[F]_k -> result 'cV[F]_k) (s : seq 'I_k) :
  (forall t d, body t d = Ok (setitem d t (f t))) ->
  forall d0, for_range s body d0
             = Ok (\col_j (if j \in s then f j else d0 j 0)).
Proof.
move=> bodyE; elim: s => [|t s IHs] d0 /=.
  by congr Ok; apply/colP=> j; rewrite mxE.
rewrite bodyE bind_Ok IHs; congr Ok; apply/colP=> j.
by rewrite !mxE in_cons; case: eqP => [->|_] /=; case: ifP => //; rewrite eqxx.
Qed.

Lemma compute_lqg_gradient_unit x lqr K Sigma :
  MDPInfo.gamma (LQR.info lqr) != 1 ->
  lyapunov_M lqr K \in unitmx ->
  compute_lqg_gradient x lqr K Sigma
  = Ok (- \col_i gradient_entry x lqr K Sigma i).
Proof.
move=> gamma1 unitM.
rewrite /compute_lqg_gradient /_parse_lqr intermediate_resultsE.
rewrite /linalg_inv unitM bind_Ok.
rewrite (for_range_setitem (f := gradient_entry x lqr K Sigma));
  first by move=> i d; apply: lqg_gradient_bodyE.
rewrite bind_Ok; congr (Ok (- _)); apply/colP=> j.
by rewrite !mxE mem_enum.
Qed.

(** C3. [compute_lqg_gradient] returns a vector of length
    [rows(K) * cols(K)] whose [i]-th component is the negation of
    [x^T dP_i x + gamma tr(Sigma B^T dP_i B) / (1 - gamma)], with [dP_i],
    [dL_i], [dM_i] and the one-hot [dK_i] as above. *)
Theorem compute_lqg_gradient_entries x lqr K Sigma :
  MDPInfo.gamma (LQR.info lqr) != 1 ->
  lyapunov_M lqr K \in unitmx ->
  exists2 g : 'cV[F]_(m * n),
    compute_lqg_gradient x lqr K Sigma = Ok g
    & forall i, g i 0 = - gradient_entry x lqr K Sigma i.
Proof.
move=> gamma1 unitM.
exists (- \col_i gradient_entry x lqr K Sigma i).
  exact: compute_lqg_gradient_unit.
by move=> i; rewrite !mxE.
Qed.

End Gradient.

Lemma compute_lqg_gradient_entries_witness :
  [/\ MDPInfo.gamma (LQR.info scalar_lqr) != 1,
      lyapunov_M scalar_lqr scalar_K \in unitmx
    & exists2 g : 'cV[rat]_(1 * 1),
        compute_lqg_gradient scalar_x scalar_lqr scalar_K scalar_Sigma = Ok g
        & forall i,
            g i 0 = - gradient_entry scalar_x scalar_lqr scalar_K
                        scalar_Sigma i].
Proof.
split; [exact: scalar_gamma_neq1 | exact: scalar_M_unit |].
exact: (compute_lqg_gradient_entries scalar_x scalar_Sigma
          scalar_gamma_neq1 scalar_M_unit).
Defined.

(** ** Failures of the entry points *)

Section Failures.

Variables (F : fieldType) (n m : nat).

Implicit Types (lqr : LQR.t F n m) (K : 'M[F]_(m, n)) (P : 'M[F]_n).
Implicit Types (Sigma : 'M[F]_m) (x : 'cV[F]_n) (z : 'cV[F]_(n + m)).

Lemma compute_lqr_V_sing x lqr K :
  lyapunov_M lqr K \notin unitmx -> compute_lqr_V x lqr K = Raise LinAlgError.
Proof. by move=> singM; rewrite /compute_lqr_V compute_lqr_P_sing. Qed.

Lemma compute_lqg_V_sing x lqr K Sigma :
  lyapunov_M lqr K \notin unitmx ->
  compute_lqg_V x lqr K Sigma = Raise LinAlgError.
Proof. by move=> singM; rewrite /compute_lqg_V compute_lqr_P_sing. Qed.

Lemma compute_lqr_Q_matrix_sing lqr K :
  lyapunov_M lqr K \notin unitmx ->
  _compute_lqr_Q_matrix lqr K = Raise LinAlgError.
Proof.
by move=> singM; rewrite /_compute_lqr_Q_matrix /= compute_lqr_P_sing.
Qed.

Lemma compute_lqr_Q_sing z lqr K :
  lyapunov_M lqr K \notin unitmx -> compute_lqr_Q z lqr K = Raise LinAlgError.
Proof. by move=> singM; rewrite /compute_lqr_Q compute_lqr_Q_matrix_sing. Qed.

Lemma compute_lqg_Q_sing z lqr K Sigma :
  lyapunov_M lqr K \notin unitmx ->
  compute_lqg_Q z lqr K Sigma = Raise LinAlgError.
Proof. by move=> singM; rewrite /compute_lqg_Q compute_lqr_Q_matrix_sing. Qed.

Lemma compute_lqg_gradient_sing x lqr K Sigma :
  lyapunov_M lqr K \notin unitmx ->
  compute_lqg_gradient x lqr K Sigma = Raise LinAlgError.
Proof.
move=> /negPf singM.
rewrite /compute_lqg_gradient /_parse_lqr intermediate_resultsE.
by rewrite /linalg_inv singM.
Qed.

(** C8, in exact arithmetic.  A singular inverse or linear solve ends every
    entry point with the [LinAlgError] of that operation, which no function
    catches, and nothing else does: each call returns a value exactly when
    its matrices are invertible ([gamma <> 1] is the descriptor's
    invariant).  On binary64 numbers the error depends on the rounded
    matrix: see [Binary64] below. *)
Theorem linalg_errors_propagate x z lqr K Sigma (k : nat) :
  MDPInfo.gamma (LQR.info lqr) != 1 ->
  let outcome :=
    if lyapunov_M lqr K \in unitmx then None else Some LinAlgError in
  let inv_ok i := riccati_denominator lqr (riccati_P lqr i) \in unitmx in
  failure (compute_lqr_P lqr K) = outcome
  /\ failure (compute_lqr_V x lqr K) = outcome
  /\ failure (compute_lqg_V x lqr K Sigma) = outcome
  /\ failure (compute_lqr_Q z lqr K) = outcome
  /\ failure (compute_lqg_Q z lqr K Sigma) = outcome
  /\ failure (compute_lqg_gradient x lqr K Sigma) = outcome
  /\ failure (solve_lqr_linear lqr k%:Z)
     = (if all inv_ok (iota 0 k.+1) then None else Some LinAlgError).
Proof.
move=> gamma1 outcome inv_ok.
have solveE0 := solve_lqr_linearE lqr k.
have solveE : failure (solve_lqr_linear lqr k%:Z)
              = (if all inv_ok (iota 0 k.+1) then None else Some LinAlgError).
  by rewrite solveE0; case: ifP.
rewrite {}/outcome; case: ifPn => [unitM | singM].
  rewrite (compute_lqg_gradient_unit x Sigma gamma1 unitM).
  rewrite compute_lqr_P_unit // compute_lqr_V_unit // compute_lqg_V_unit //.
  by rewrite compute_lqr_Q_unit // compute_lqg_Q_unit.
rewrite compute_lqr_P_sing // compute_lqr_V_sing // compute_lqg_V_sing //.
rewrite compute_lqr_Q_sing // compute_lqg_Q_sing //.
by rewrite compute_lqg_gradient_sing.
Qed.

End Failures.

(** * The linear solve in binary64 arithmetic

    NumPy computes on binary64 numbers.  For arrays of shape 1 x 1 every
    operation of [compute_lqr_P] is one IEEE 754 operation on the entries,
    rounded to nearest even: [X.T] is [X], [X @ Y] and [np.kron(X, Y)] are
    the product of the entries, [np.eye(1, 1)] is [1.0] and [reshape]
    changes nothing.  The module [Binary64] is [compute_lqr_P] on such
    arrays, an array being its entry. *)

Module Binary64.

Definition float := SpecFloat.spec_float.

Definition prec : BinNums.Z := BinNums.Zpos 53.
Definition emax : BinNums.Z := BinNums.Zpos 1024.

Definition add : float -> float -> float := SpecFloat.SFadd prec emax.
Definition sub : float -> float -> float := SpecFloat.SFsub prec emax.
Definition mul : float -> float -> float := SpecFloat.SFmul prec emax.
Definition div : float -> float -> float := SpecFloat.SFdiv prec emax.

(** The binary64 number nearest to [m * 2^e]. *)
Definition of_Z (m e : BinNums.Z) : float :=
  SpecFloat.binary_normalize prec emax m e false.

Definition one : float := of_Z (BinNums.Zpos 1) BinNums.Z0.

(** [x == 0.0], true of both zeros. *)
Definition is_zero (x : float) : bool :=
  if x is SpecFloat.S754_zero _ then true else false.

(** [X.T], [X @ Y], [np.kron(X, Y)], [np.eye(1, 1)] and [X.reshape(...)] on
    1 x 1 arrays. *)
Definition T (X : float) : float := X.
Definition matmul (X Y : float) : float := mul X Y.
Definition kron (X Y : float) : float := mul X Y.
Definition eye : float := one.
Definition reshape (X : float) : float := X.

(** [np.linalg.solve(M, b)] for a 1 x 1 system: LAPACK reports a singular
    matrix when the pivot, here the only entry, compares equal to zero, and
    NumPy then raises; otherwise the right-hand side is divided by it. *)
Definition linalg_solve (M b : float) : result float :=
  if is_zero M then Raise LinAlgError else Ok (div b M).

Module LQR.
Record t := Make { A : float; B : float; Q : float; R : float; gamma : float }.
End LQR.

Definition _parse_lqr (lqr : LQR.t) :=
  (LQR.A lqr, LQR.B lqr, LQR.Q lqr, LQR.R lqr, LQR.gamma lqr).

Definition _compute_lqr_intermediate_results (K A B Q R gamma : float) :
    float * float :=
  let L := add Q (matmul (matmul (T K) R) K) in
  let kb := matmul (T K) (T B) in
  let M := sub eye
             (mul gamma
                (add (sub (sub (kron (T A) (T A)) (kron (T A) kb))
                          (kron kb (T A)))
                     (kron kb kb))) in
  (L, M).

Definition compute_lqr_P (lqr : LQR.t) (K : float) : result float :=
  let '(A, B, Q, R, gamma) := _parse_lqr lqr in
  let '(L, M) := _compute_lqr_intermediate_results K A B Q R gamma in
  let! vec_P := linalg_solve M (reshape L) in
  Ok (reshape vec_P).

End Binary64.

(** ** A singular system that rounding hides

    [A = a], [K = a - 2], [B = Q = R = 1] and [gamma = 1/4]: the closed loop
    is [A - B K = 2] and [gamma 2^2 = 1], so the system of [compute_lqr_P]
    is singular for every [a]. *)

Definition offset_lqr (a : rat) : LQR.t rat 1 1 :=
  LQR.Make a%:M 1%:M 1%:M 1%:M (MDPInfo.Make (1%:Q / 4%:Q)).

Definition offset_K (a : rat) : 'M[rat]_1 := (a - 2%:Q)%:M.

(** The same problem at [a = 2^30], in binary64: [A = 2^30],
    [K = 2^30 - 2 = 1073741822], [gamma = 2^-2]. *)
Definition offset_lqr_binary64 : Binary64.LQR.t :=
  Binary64.LQR.Make
    (Binary64.of_Z (BinNums.Zpos 1) (BinNums.Zpos 30))
    Binary64.one Binary64.one Binary64.one
    (Binary64.of_Z (BinNums.Zpos 1) (BinNums.Zneg 2)).

Definition offset_K_binary64 : Binary64.float :=
  Binary64.of_Z (BinNums.Zpos 1073741822) BinNums.Z0.

Lemma offset_closed_loop a : closed_loop (offset_lqr a) (offset_K a) = 2%:Q%:M.
Proof.
rewrite /closed_loop /offset_K /= mul1mx -raddfB /=.
by rewrite opprB addrCA subrr addr0.
Qed.

Lemma offset_fixed a :
  (1%:M : 'M[rat]_1)
  = MDPInfo.gamma (LQR.info (offset_lqr a))
    *: ((closed_loop (offset_lqr a) (offset_K a))^T *m 1%:M
        *m closed_loop (offset_lqr a) (offset_K a)).
Proof.
rewrite offset_closed_loop [MDPInfo.gamma _]/= tr_scalar_mx mulmx1.
by rewrite -scalar_mxM scale_scalar_mx; congr (_%:M).
Qed.

Lemma offset_M_sing a : lyapunov_M (offset_lqr a) (offset_K a) \notin unitmx.
Proof.
apply: (@lyapunov_M_fixed_sing _ _ _ _ _ 1%:M); last exact: offset_fixed.
by rewrite oner_eq0.
Qed.

Lemma linalg_errors_propagate_witness :
  (MDPInfo.gamma (LQR.info scalar_lqr) != 1
   /\ failure (compute_lqr_P scalar_lqr scalar_K) = None
   /\ failure (compute_lqg_gradient scalar_x scalar_lqr scalar_K scalar_Sigma)
      = None)
  /\ (MDPInfo.gamma (LQR.info (offset_lqr 3%:Q)) != 1
      /\ failure (compute_lqr_P (offset_lqr 3%:Q) (offset_K 3%:Q))
         = Some LinAlgError
      /\ failure (compute_lqg_gradient scalar_x (offset_lqr 3%:Q)
                    (offset_K 3%:Q) scalar_Sigma)
         = Some LinAlgError).
Proof.
have offset_gamma : MDPInfo.gamma (LQR.info (offset_lqr 3%:Q)) != 1 by [].
split.
  have [] := linalg_errors_propagate scalar_x (col_mx scalar_x scalar_x)
               scalar_K scalar_Sigma 0 scalar_gamma_neq1.
  rewrite scalar_M_unit => okP [_ [_ [_ [_ [okG _]]]]].
  by split; first exact: scalar_gamma_neq1.
have [] := linalg_errors_propagate scalar_x (col_mx scalar_x scalar_x)
             (offset_K 3%:Q) scalar_Sigma 0 offset_gamma.
rewrite (negPf (offset_M_sing 3%:Q)) => errP [_ [_ [_ [_ [errG _]]]]].
by split; first exact: offset_gamma.
Defined.

(** C8, as stated, fails on the program: at [a = 2^30] the system is
    singular, and over the rationals [compute_lqr_P] raises.  In binary64
    the square of [K] is rounded, the Kronecker terms cancel, [M] comes out
    as [1.0], no pivot is zero and the call returns [2^60 - 2^32] (about
    1.15e18) as if it were the value matrix. *)
Lemma linalg_error_lost_in_binary64 :
  [/\ lyapunov_M (offset_lqr (2%:Q ^+ 30)) (offset_K (2%:Q ^+ 30))
        \notin unitmx,
      compute_lqr_P (offset_lqr (2%:Q ^+ 30)) (offset_K (2%:Q ^+ 30))
      = Raise LinAlgError,
      (Binary64._compute_lqr_intermediate_results offset_K_binary64
         (Binary64.LQR.A offset_lqr_binary64)
         (Binary64.LQR.B offset_lqr_binary64)
         (Binary64.LQR.Q offset_lqr_binary64)
         (Binary64.LQR.R offset_lqr_binary64)
         (Binary64.LQR.gamma offset_lqr_binary64)).2
      = Binary64.one
    & Binary64.compute_lqr_P offset_lqr_binary64 offset_K_binary64
      = Ok (Binary64.of_Z (BinNums.Zpos 1152921500311879680) BinNums.Z0)].
Proof.
split.
- exact: offset_M_sing.
- by apply: compute_lqr_P_sing; exact: offset_M_sing.
- by vm_compute.
- by vm_compute.
Qed.

(** * Arrays that carry their shape

    NumPy checks the shapes of the operands of an operation when it runs
    it.  The module [Dyn] models the two-dimensional arrays of [lqr.py] with
    their shape as data, and the operations of [solve_lqr_linear] with the
    checks NumPy makes: [@] needs the inner dimensions to agree, [+] and [-]
    broadcast a dimension of size 1, [np.linalg.inv] needs a square,
    nonsingular matrix.  The source adds no check of its own. *)

Module Dyn.

Section Arrays.

Variable F : fieldType.

Record ndarray := Ndarray {
  rows : nat;
  cols : nat;
  data : 'M[F]_(rows, cols)
}.

(** [X.shape] *)
Definition shape (X : ndarray) : nat * nat := (rows X, cols X).

(** [X[i, j]], read only inside the shape by the operations below. *)
Definition getitem (X : ndarray) (i j : nat) : F :=
  match insub i, insub j with
  | Some i', Some j' => data X i' j'
  | _, _ => 0
  end.

(** [X.T] *)
Definition transpose (X : ndarray) : ndarray := Ndarray (data X)^T.

(** [np.eye(k)] *)
Definition eye (k : nat) : ndarray := Ndarray (1%:M : 'M[F]_k).

(** [g * X] for a number [g] *)
Definition scale (g : F) (X : ndarray) : ndarray := Ndarray (g *: data X).

(** [X @ Y] *)
Definition matmul (X Y : ndarray) : result ndarray :=
  if cols X == rows Y then
    Ok (Ndarray (\matrix_(i < rows X, j < cols Y)
                   \sum_(k < cols X) getitem X i k * getitem Y k j))
  else Raise ValueError.

(** The common size of two dimensions under broadcasting, if any. *)
Definition broadcast (a b : nat) : option nat :=
  if a == b then Some a
  else if a == 1%N then Some b
  else if b == 1%N then Some a
  else None.

(** The index read in a dimension of size [a] for the index [i] of the
    result: a dimension of size 1 is repeated. *)
Definition stretch (a i : nat) : nat := if a == 1%N then 0%N else i.

Definition elementwise (op : F -> F -> F) (X Y : ndarray) : result ndarray :=
  match broadcast (rows X) (rows Y), broadcast (cols X) (cols Y) with
  | Some r, Some c =>
      Ok (Ndarray (\matrix_(i < r, j < c)
            op (getitem X (stretch (rows X) i) (stretch (cols X) j))
               (getitem Y (stretch (rows Y) i) (stretch (cols Y) j))))
  | _, _ => Raise ValueError
  end.

(** [X + Y] and [X - Y] *)
Definition add : ndarray -> ndarray -> result ndarray := elementwise +%R.
Definition sub : ndarray -> ndarray -> result ndarray :=
  elementwise (fun u v => u - v).

(** [np.linalg.inv(X)] *)
Definition inv (X : ndarray) : result ndarray :=
  if rows X == cols X then
    let M : 'M[F]_(rows X) := \matrix_(i, j) getitem X i j in
    if M \in unitmx then Ok (Ndarray (invmx M)) else Raise LinAlgError
  else Raise LinAlgError.

(** Operators on the results of their operands, evaluated left to right
    as Python does: the first exception raised is the outcome. *)
Definition lift1 (op : ndarray -> result ndarray) (x : result ndarray) :=
  let! a := x in op a.

Definition lift2 (op : ndarray -> ndarray -> result ndarray)
    (x y : result ndarray) : result ndarray :=
  let! a := x in let! b := y in op a b.

End Arrays.

Declare Scope dyn_scope.
Delimit Scope dyn_scope with D.

Notation "X ^T" := (Ok (transpose X)) : dyn_scope.
Notation "x @ y" := (lift2 (@matmul _) x y)
  (at level 40, left associativity) : dyn_scope.
Notation "g *. x" := (lift1 (fun a => Ok (scale g a)) x)
  (at level 40, left associativity) : dyn_scope.
Notation "x + y" := (lift2 (@add _) x y) : dyn_scope.
Notation "x - y" := (lift2 (@sub _) x y) : dyn_scope.
Notation "` X" := (Ok X) (at level 8, format "` X") : dyn_scope.

Module LQR.
Record t (F : fieldType) := Make {
  A : ndarray F;
  B : ndarray F;
  Q : ndarray F;
  R : ndarray F;
  info : MDPInfo.t F
}.
End LQR.

Section Solver.

Variable F : fieldType.

Implicit Types (lqr : LQR.t F) (A B Q R K P : ndarray F) (gamma : F).

Definition _parse_lqr lqr :=
  (LQR.A lqr, LQR.B lqr, LQR.Q lqr, LQR.R lqr, MDPInfo.gamma (LQR.info lqr)).

Definition _compute_riccati_rhs A B Q R gamma K P : result (ndarray F) :=
  (`Q + gamma *. (A^T @ `P @ `A - K^T @ B^T @ `P @ `A - A^T @ `P @ `B @ `K
                  + K^T @ B^T @ `P @ `B @ `K)
   + K^T @ `R @ `K)%D.

Definition _compute_riccati_gain P A B R gamma : result (ndarray F) :=
  (gamma *. lift1 (@inv F) (`R + gamma *. (B^T @ `P @ `B)) @ B^T @ `P @ `A)%D.

Fixpoint riccati_while (fuel : nat) A B Q R gamma (max_iterations it : int)
    P K : result (int * ndarray F * ndarray F) :=
  if fuel is fuel'.+1 then
    if (it < max_iterations)%R then
      let! P1 := _compute_riccati_rhs A B Q R gamma K P in
      let! K1 := _compute_riccati_gain P1 A B R gamma in
      riccati_while fuel' A B Q R gamma max_iterations (it + 1) P1 K1
    else Ok (it, P, K)
  else Raise FuelExhausted.

Definition solve_lqr_linear lqr (max_iterations : int) : result (ndarray F) :=
  let '(A, B, Q, R, gamma) := _parse_lqr lqr in
  let P := eye F (rows Q) in
  let! K := _compute_riccati_gain P A B R gamma in
  let it : int := 0 in
  let! s := riccati_while `|max_iterations|%N.+1 A B Q R gamma
              max_iterations it P K in
  Ok s.2.

(** A dimensionally consistent descriptor: [A] and [Q] are n x n, [B] is
    n x m and [R] is m x m.  The source never computes this. *)
Definition consistent lqr : bool :=
  let n := rows (LQR.A lqr) in
  let m := cols (LQR.B lqr) in
  [&& shape (LQR.A lqr) == (n, n), shape (LQR.B lqr) == (n, m),
      shape (LQR.Q lqr) == (n, n) & shape (LQR.R lqr) == (m, m)].

End Solver.

End Dyn.

(** ** Arrays whose shapes fit behave as typed matrices *)

Section DynTheory.

Variable F : fieldType.

Import Dyn.

Lemma getitem_Ndarray p q (X : 'M[F]_(p, q)) (i : 'I_p) (j : 'I_q) :
  getitem (Ndarray X) i j = X i j.
Proof. by rewrite /getitem /= !valK. Qed.

Lemma matmul_Ndarray p q r (X : 'M[F]_(p, q)) (Y : 'M[F]_(q, r)) :
  matmul (Ndarray X) (Ndarray Y) = Ok (Ndarray (X *m Y)).
Proof.
rewrite /matmul /= eqxx; congr (Ok (Ndarray _)).
apply/matrixP=> i j; rewrite !mxE; apply: eq_bigr => k _.
by rewrite !getitem_Ndarray.
Qed.

Lemma broadcast_same a : broadcast a a = Some a.
Proof. by rewrite /broadcast eqxx. Qed.

Lemma stretch_ord a (i : 'I_a) : stretch a i = i.
Proof.
rewrite /stretch; case: eqP => // a1; move: i; rewrite a1 => i.
by rewrite ord1.
Qed.

Lemma elementwise_Ndarray op p q (X Y : 'M[F]_(p, q)) :
  elementwise op (Ndarray X) (Ndarray Y)
  = Ok (Ndarray (\matrix_(i, j) op (X i j) (Y i j))).
Proof.
rewrite /elementwise /= !broadcast_same; congr (Ok (Ndarray _)).
by apply/matrixP=> i j; rewrite !mxE !stretch_ord !getitem_Ndarray.
Qed.

Lemma add_Ndarray p q (X Y : 'M[F]_(p, q)) :
  add (Ndarray X) (Ndarray Y) = Ok (Ndarray (X + Y)).
Proof.
rewrite /add elementwise_Ndarray; congr (Ok (Ndarray _)).
by apply/matrixP=> i j; rewrite !mxE.
Qed.

Lemma sub_Ndarray p q (X Y : 'M[F]_(p, q)) :
  sub (Ndarray X) (Ndarray Y) = Ok (Ndarray (X - Y)).
Proof.
rewrite /sub elementwise_Ndarray; congr (Ok (Ndarray _)).
by apply/matrixP=> i j; rewrite !mxE.
Qed.

Lemma inv_Ndarray k (X : 'M[F]_k) :
  inv (Ndarray X)
  = if X \in unitmx then Ok (Ndarray (invmx X)) else Raise LinAlgError.
Proof.
rewrite /inv /= eqxx.
have -> : (\matrix_(i, j) getitem (Ndarray X) i j) = X.
  by apply/matrixP=> i j; rewrite mxE getitem_Ndarray.
by [].
Qed.

Lemma transpose_Ndarray p q (X : 'M[F]_(p, q)) :
  transpose (Ndarray X) = Ndarray X^T.
Proof. by []. Qed.

Lemma scale_Ndarray g p q (X : 'M[F]_(p, q)) :
  scale g (Ndarray X) = Ndarray (g *: X).
Proof. by []. Qed.

End DynTheory.

(** ** The solver on arrays against the solver on typed matrices *)

Definition result_map (T U : Type) (f : T -> U) (c : result T) : result U :=
  let! v := c in Ok (f v).



(** A descriptor whose state matrix is 1 x 2, next to 1 x 1 matrices
    [B], [Q] and [R]; discount 9/10. *)
Definition mismatched_lqr : Dyn.LQR.t rat :=
  Dyn.LQR.Make (Dyn.Ndarray (const_mx 1 : 'M[rat]_(1, 2)))
    (Dyn.Ndarray (1%:M : 'M[rat]_1)) (Dyn.Ndarray (1%:M : 'M[rat]_1))
    (Dyn.Ndarray (1%:M : 'M[rat]_1)) (MDPInfo.Make (9%:Q / 10%:Q)).

Section Refinement.

Variables (F : fieldType).

Definition dyn_rw :=
  (transpose_Ndarray, scale_Ndarray, matmul_Ndarray, add_Ndarray, sub_Ndarray,
   bind_Ok).

Lemma dyn_riccati_gain n c m (P : 'M[F]_n) (A : 'M[F]_(n, c))
    (B : 'M[F]_(n, m)) (R : 'M[F]_m) gamma :
  Dyn._compute_riccati_gain (Dyn.Ndarray P) (Dyn.Ndarray A) (Dyn.Ndarray B)
    (Dyn.Ndarray R) gamma
  = let D := R + gamma *: (B^T *m P *m B) in
    if D \in unitmx then Ok (Dyn.Ndarray (gamma *: invmx D *m B^T *m P *m A))
    else Raise LinAlgError.
Proof.
rewrite /Dyn._compute_riccati_gain /Dyn.lift2 /Dyn.lift1 !dyn_rw inv_Ndarray /=.
by case: ifP => // _; rewrite !dyn_rw.
Qed.











End Refinement.


Lemma mismatched_riccati_unit :
  (1%:M : 'M[rat]_1)
  + (9%:Q / 10%:Q) *: ((1%:M : 'M[rat]_1)^T *m (1%:M : 'M[rat]_1) *m 1%:M)
    \in unitmx.
Proof.
rewrite trmx1 !mulmx1 scalemx1 -raddfD /= unitmxE det_scalar1.
by [].
Qed.


(** * Further properties of the solvers *)

(** ** Policy evaluation *)

Section PolicyEvaluation.

Variables (F : fieldType) (n m : nat).

Implicit Types (lqr : LQR.t F n m) (K : 'M[F]_(m, n)) (P X : 'M[F]_n).
Implicit Types (x : 'cV[F]_n).

(** The right-hand side of the Riccati update, in closed-loop form. *)
Lemma riccati_rhs_closed_loop lqr K P :
  _compute_riccati_rhs (LQR.A lqr) (LQR.B lqr) (LQR.Q lqr) (LQR.R lqr)
    (MDPInfo.gamma (LQR.info lqr)) K P
  = lyapunov_L lqr K
    + MDPInfo.gamma (LQR.info lqr)
      *: ((closed_loop lqr K)^T *m P *m closed_loop lqr K).
Proof.
rewrite /_compute_riccati_rhs /lyapunov_L /closed_loop.
set A := LQR.A lqr; set B := LQR.B lqr; set g := MDPInfo.gamma _.
rewrite addrAC; congr (_ + _ *: _).
rewrite mulmxBr [(A - _)^T]linearB /= trmx_mul !mulmxBl opprB addrA !mulmxA.
by rewrite addrAC.
Qed.

(** X1. A matrix [P] is left unchanged by [_compute_riccati_rhs] at the gain
    [K] exactly when it is the matrix [compute_lqr_P] returns for [K]. *)
Theorem compute_lqr_P_fixed_point lqr K P :
  lyapunov_M lqr K \in unitmx ->
  _compute_riccati_rhs (LQR.A lqr) (LQR.B lqr) (LQR.Q lqr) (LQR.R lqr)
    (MDPInfo.gamma (LQR.info lqr)) K P = P
  <-> compute_lqr_P lqr K = Ok P.
Proof.
move=> unitM; rewrite riccati_rhs_closed_loop; split=> [eqP|eqP].
  exact: lyapunov_unique.
by rewrite -(lyapunov_solution unitM eqP).
Qed.


(** X3, in exact arithmetic.  A nonzero matrix [X] that the discounted
    closed loop maps to itself, [X = gamma (A - B K)^T X (A - B K)], makes
    the linear system of [compute_lqr_P] singular: over the field the call
    raises [LinAlgError].  (On binary64 numbers rounding can hide the
    singularity, as the instance at [2^30] above shows.) *)
Theorem compute_lqr_P_singular_direction lqr K X :
  X != 0 ->
  X = MDPInfo.gamma (LQR.info lqr)
      *: ((closed_loop lqr K)^T *m X *m closed_loop lqr K) ->
  compute_lqr_P lqr K = Raise LinAlgError.
Proof.
move=> X0 fixX; apply: compute_lqr_P_sing.
exact: lyapunov_M_fixed_sing X0 fixX.
Qed.

(** X4. The value is a quadratic form of the state: scaling the state by
    [c] scales what [compute_lqr_V] returns by [c^2] (so the value at the
    zero state is zero), and an error is the same error. *)
Theorem compute_lqr_V_quadratic x lqr K (c : F) :
  compute_lqr_V (c *: x) lqr K
  = result_map (fun v => c ^+ 2 * v) (compute_lqr_V x lqr K).
Proof.
rewrite /compute_lqr_V /result_map.
case: (compute_lqr_P lqr K) => [P|e] //=; congr Ok.
rewrite /item linearZ /= [(c *: x)^T]linearZ /= -scalerN -!scalemxAl scalerA.
by rewrite mxE expr2.
Qed.

End PolicyEvaluation.

(** ** The action-value matrix *)

Section ActionValue.

Variables (F : fieldType) (n m : nat).

Implicit Types (lqr : LQR.t F n m) (K : 'M[F]_(m, n)) (P : 'M[F]_n).
Implicit Types (Sigma : 'M[F]_m) (x : 'cV[F]_n) (z : 'cV[F]_(n + m)).

Lemma value_matrix_sym lqr K :
  (LQR.Q lqr)^T = LQR.Q lqr -> (LQR.R lqr)^T = LQR.R lqr ->
  lyapunov_M lqr K \in unitmx ->
  (value_matrix lqr K)^T = value_matrix lqr K.
Proof.
move=> symQ symR unitM.
have eqP := compute_lqr_P_unit unitM.
have lyapP := lyapunov_solution unitM eqP.
suff: compute_lqr_P lqr K = Ok (value_matrix lqr K)^T by rewrite eqP => -[].
apply: lyapunov_unique => //.
rewrite -(lyapunov_L_sym K symQ symR).
rewrite -[in RHS](trmxK (closed_loop lqr K)) -!trmx_mul mulmxA trmxK.
by rewrite -linearZ /= -linearD /= -lyapP.
Qed.

Lemma noise_offset (g t : F) :
  1 - g != 0 -> - (g / (1 - g) * t) = - (t / (1 - g)) + t.
Proof.
move=> g1; apply: (mulIf g1).
rewrite mulrDl !mulNr mulrAC !divfK // mulrBr mulr1 addrA addNr add0r.
by rewrite mulrC.
Qed.

(** X5. When [Q] and [R] are symmetric, the block matrix built by
    [_compute_lqr_Q_matrix] is symmetric. *)
Theorem compute_lqr_Q_matrix_symmetric lqr K :
  (LQR.Q lqr)^T = LQR.Q lqr -> (LQR.R lqr)^T = LQR.R lqr ->
  lyapunov_M lqr K \in unitmx ->
  exists2 M, _compute_lqr_Q_matrix lqr K = Ok M & M^T = M.
Proof.
move=> symQ symR unitM; exists (Q_matrix lqr (value_matrix lqr K)).
  exact: compute_lqr_Q_matrix_unit.
have symP := value_matrix_sym symQ symR unitM.
rewrite /Q_matrix /= tr_block_mx !linearD /= -!scalemxAl !linearZ /=.
by rewrite !trmx_mul !trmxK symP symQ symR !mulmxA.
Qed.

(** X6. The gain step of the Riccati iteration, taken at the value matrix
    of a gain [K], is the gain that is greedy for the action-value matrix
    of [K]: the inverse of its action block applied to its cross block. *)
Theorem riccati_gain_greedy lqr K :
  lyapunov_M lqr K \in unitmx ->
  exists2 M, _compute_lqr_Q_matrix lqr K = Ok M
    & _compute_riccati_gain (value_matrix lqr K) (LQR.A lqr) (LQR.B lqr)
        (LQR.R lqr) (MDPInfo.gamma (LQR.info lqr))
      = if drsubmx M \in unitmx then Ok (invmx (drsubmx M) *m dlsubmx M)
        else Raise LinAlgError.
Proof.
move=> unitM; exists (Q_matrix lqr (value_matrix lqr K)).
  exact: compute_lqr_Q_matrix_unit.
rewrite /Q_matrix /= block_mxKdr block_mxKdl.
rewrite /_compute_riccati_gain /linalg_inv -!scalemxAl.
by case: ifP => //= _; rewrite -!scalemxAl -scalemxAr !mulmxA.
Qed.

(** X7. Under a Gaussian policy, the action value at the mean action
    [u = - K x] exceeds the state value by the trace term
    [tr(Sigma (R + gamma B^T P B))]. *)
Theorem compute_lqg_Q_mean_action x lqr K Sigma :
  let gamma := MDPInfo.gamma (LQR.info lqr) in
  let B := LQR.B lqr in
  gamma != 1 ->
  lyapunov_M lqr K \in unitmx ->
  exists P v,
    [/\ compute_lqr_P lqr K = Ok P, compute_lqg_V x lqr K Sigma = Ok v
      & compute_lqg_Q (col_mx x (- (K *m x))) lqr K Sigma
        = Ok (v + \tr (Sigma *m (LQR.R lqr + gamma *: B^T *m P *m B)))].
Proof.
move=> gamma B gamma1 unitM.
exists (value_matrix lqr K); eexists; split.
- exact: compute_lqr_P_unit.
- exact: compute_lqg_V_unit.
rewrite compute_lqg_Q_unit //; congr Ok.
set t := \tr _.
rewrite -addrA; congr (_ + _).
  congr item.
  rewrite [in RHS](lyapunov_solution unitM (compute_lqr_P_unit unitM)).
  by rewrite !mulNmx Q_matrix_policy.
by rewrite noise_offset // one_minus_neq0.
Qed.

End ActionValue.

(** ** The derivative of the value matrix *)

Section ValueDerivative.

Variables (F : fieldType) (n m : nat).

Implicit Types (lqr : LQR.t F n m) (K : 'M[F]_(m, n)) (P : 'M[F]_n).
Implicit Types (i : 'I_(m * n)).

(** [dM_i vec(X)] is the flattening of
    [gamma ((A - B K)^T X B dK_i + dK_i^T B^T X (A - B K))]. *)
Lemma gradient_dM_vec lqr K i (X : 'M[F]_n) :
  gradient_dM lqr K i *m reshape_vec X
  = reshape_vec (MDPInfo.gamma (LQR.info lqr)
                 *: ((closed_loop lqr K)^T *m X *m (LQR.B lqr *m gradient_dK F i)
                     + (LQR.B lqr *m gradient_dK F i)^T *m X
                       *m closed_loop lqr K)).
Proof.
rewrite /gradient_dM /closed_loop /=.
set A := LQR.A lqr; set B := LQR.B lqr; set g := MDPInfo.gamma _.
set dK := gradient_dK F i.
rewrite -scalemxAl reshape_vecZ; congr (_ *: _).
rewrite !(mulmxDl, mulmxBl, mulNmx) !kron_mul_vec !trmx_mul !trmxK.
rewrite -!(reshape_vecD, reshape_vecN); congr reshape_vec.
rewrite mulmxBr [(A - _)^T]linearB /= trmx_mul !mulmxBl addrA.
by rewrite addrAC; congr (_ - _); rewrite addrAC.
Qed.

(** X8. The matrix [dP_i] from which [compute_lqg_gradient] builds its
    [i]-th component solves the Lyapunov equation of [compute_lqr_P]
    differentiated along the one-hot direction [dK_i]:
    [dP_i = dL_i + gamma ((A - B K)^T dP_i (A - B K)
                          - (B dK_i)^T P (A - B K) - (A - B K)^T P (B dK_i))]
    with [P] the matrix returned by [compute_lqr_P]. *)
Theorem gradient_dP_lyapunov lqr K i :
  let gamma := MDPInfo.gamma (LQR.info lqr) in
  let Acl := LQR.A lqr - LQR.B lqr *m K in
  let BdK := LQR.B lqr *m gradient_dK F i in
  lyapunov_M lqr K \in unitmx ->
  exists2 P, compute_lqr_P lqr K = Ok P
    & gradient_dP lqr K i
      = gradient_dL lqr K i
        + gamma *: (Acl^T *m gradient_dP lqr K i *m Acl
                    - BdK^T *m P *m Acl - Acl^T *m P *m BdK).
Proof.
move=> gamma Acl BdK unitM; exists (value_matrix lqr K).
  exact: compute_lqr_P_unit.
set dP := gradient_dP lqr K i; set P := value_matrix lqr K.
have eq_vec : lyapunov_M lqr K *m reshape_vec dP
    = reshape_vec (gradient_dL lqr K i)
      - gradient_dM lqr K i *m reshape_vec P.
  rewrite /dP /gradient_dP /= reshape_mxK mulmxDr mulmxN !mulmxA.
  rewrite mulmxV // !mul1mx addrC; congr (_ - _).
  by rewrite /P /value_matrix reshape_mxK mulmxA.
move: eq_vec; rewrite lyapunov_M_vec gradient_dM_vec -reshape_vecN -reshape_vecD.
move/reshape_vec_inj; rewrite -/gamma -/Acl -/BdK => eqdP.
rewrite -[LHS](subrK (gamma *: (Acl^T *m dP *m Acl))) eqdP.
rewrite -addrA; congr (_ + _).
rewrite -scalerN -scalerDr; congr (_ *: _).
by rewrite /closed_loop -/Acl addrC opprD addrA addrAC.
Qed.

End ValueDerivative.

(** ** Invariants and edge cases of the Riccati iteration *)

Section RiccatiLoop.

Variables (F : fieldType) (n m : nat).

Implicit Types (lqr : LQR.t F n m) (K : 'M[F]_(m, n)) (P : 'M[F]_n).

Lemma riccati_rhs_sym lqr K P :
  (LQR.Q lqr)^T = LQR.Q lqr -> (LQR.R lqr)^T = LQR.R lqr -> P^T = P ->
  (_compute_riccati_rhs (LQR.A lqr) (LQR.B lqr) (LQR.Q lqr) (LQR.R lqr)
     (MDPInfo.gamma (LQR.info lqr)) K P)^T
  = _compute_riccati_rhs (LQR.A lqr) (LQR.B lqr) (LQR.Q lqr) (LQR.R lqr)
      (MDPInfo.gamma (LQR.info lqr)) K P.
Proof.
move=> symQ symR symP.
rewrite riccati_rhs_closed_loop linearD /= linearZ /= lyapunov_L_sym //.
by rewrite !trmx_mul trmxK symP mulmxA.
Qed.

(** X9. The loop of [solve_lqr_linear] keeps the value matrix symmetric:
    with [Q] and [R] symmetric, entered at a symmetric [P] (the solver
    enters it at the identity) it leaves with a symmetric [P], whatever the
    gains were. *)
Theorem riccati_while_symmetric lqr (fuel : nat) (max_iterations it : int)
    P K s :
  (LQR.Q lqr)^T = LQR.Q lqr -> (LQR.R lqr)^T = LQR.R lqr -> P^T = P ->
  riccati_while fuel (LQR.A lqr) (LQR.B lqr) (LQR.Q lqr) (LQR.R lqr)
    (MDPInfo.gamma (LQR.info lqr)) max_iterations it P K = Ok s ->
  (s.1.2)^T = s.1.2.
Proof.
move=> symQ symR.
elim: fuel it P K => [|fuel IH] it P K symP //=.
case: ifP => _; last by case=> <-.
case: (_compute_riccati_gain _ _ _ _ _) => [K1|e] //=.
by apply: IH; apply: riccati_rhs_sym.
Qed.

(** X10. A budget that is zero or negative never enters the loop:
    [solve_lqr_linear] returns the gain of the identity initialisation, or
    raises [LinAlgError] when [R + gamma B^T B] is singular. *)
Theorem solve_lqr_linear_nonpositive_budget lqr (max_iterations : int) :
  max_iterations <= 0 ->
  solve_lqr_linear lqr max_iterations
  = if riccati_denominator lqr 1%:M \in unitmx
    then Ok (riccati_gain lqr 1%:M) else Raise LinAlgError.
Proof.
case: max_iterations => [[|k]|k] // _.
  by rewrite (solve_lqr_linearE lqr 0) /= andbT.
by rewrite solve_lqr_linear_negative (solve_lqr_linearE lqr 0) /= andbT.
Qed.

End RiccatiLoop.

(** ** What the solver does with shapes that do not fit *)

Section ShapeBehaviour.

Variable F : fieldType.

(** X11. When the number of rows of [B] differs from that of [Q], the first
    product [B.T @ P] of the gain step, with [P = np.eye(Q.shape[0])], has
    operands that do not fit: [solve_lqr_linear] raises [ValueError], for
    every budget and before any inversion. *)
Theorem dyn_solve_lqr_linear_rows_mismatch (d : Dyn.LQR.t F)
    (max_iterations : int) :
  Dyn.rows (Dyn.LQR.B d) != Dyn.rows (Dyn.LQR.Q d) ->
  Dyn.solve_lqr_linear d max_iterations = Raise ValueError.
Proof.
case: d => A B Q R info /= /negPf neq.
rewrite /Dyn.solve_lqr_linear /= /Dyn._compute_riccati_gain.
by rewrite /Dyn.lift2 /Dyn.lift1 /= /Dyn.matmul /= neq.
Qed.

Lemma dyn_riccati_while_nonpositive fuel (A B Q R P K : Dyn.ndarray F) gamma
    (max_iterations : int) :
  max_iterations <= 0 ->
  Dyn.riccati_while fuel.+1 A B Q R gamma max_iterations 0 P K = Ok (0, P, K).
Proof. by case: max_iterations => [[|k]|k]. Qed.

(** X12. With a budget that is zero or negative, [solve_lqr_linear] never
    looks at the number of columns of [A] or of [Q]: for [B] of shape
    n x m, [R] of shape m x m and [A] and [Q] with n rows, it returns a gain
    with as many columns as [A] has. *)
Theorem dyn_solve_lqr_linear_zero_budget n m c q (A : 'M[F]_(n, c))
    (B : 'M[F]_(n, m)) (Q : 'M[F]_(n, q)) (R : 'M[F]_m) info
    (max_iterations : int) :
  let gamma := MDPInfo.gamma info in
  let D := R + gamma *: (B^T *m 1%:M *m B) in
  max_iterations <= 0 ->
  Dyn.solve_lqr_linear
    (Dyn.LQR.Make (Dyn.Ndarray A) (Dyn.Ndarray B) (Dyn.Ndarray Q)
       (Dyn.Ndarray R) info) max_iterations
  = if D \in unitmx
    then Ok (Dyn.Ndarray (gamma *: invmx D *m B^T *m 1%:M *m A))
    else Raise LinAlgError.
Proof.
move=> gamma D le0.
rewrite /Dyn.solve_lqr_linear /Dyn.eye /Dyn._parse_lqr.
cbv beta iota delta [Dyn.LQR.A Dyn.LQR.B Dyn.LQR.Q Dyn.LQR.R Dyn.LQR.info
                     Dyn.rows].
rewrite dyn_riccati_gain; cbv zeta; rewrite -/gamma -/D.
case: ifP => // _.
by rewrite bind_Ok dyn_riccati_while_nonpositive.
Qed.

Lemma add_scalar_Ndarray m (R : 'M[F]_1) (X : 'M[F]_m.+2) :
  Dyn.add (Dyn.Ndarray R) (Dyn.Ndarray X)
  = Ok (Dyn.Ndarray (const_mx (R 0 0) + X)).
Proof.
rewrite /Dyn.add /Dyn.elementwise /=; congr (Ok (Dyn.Ndarray _)).
apply/matrixP=> i j; rewrite !mxE !stretch_ord /Dyn.stretch /=.
by rewrite (getitem_Ndarray R 0 0) getitem_Ndarray.
Qed.

Lemma dyn_riccati_gain_scalar_R n c m (P : 'M[F]_n) (A : 'M[F]_(n, c))
    (B : 'M[F]_(n, m.+2)) (R : 'M[F]_1) gamma :
  Dyn._compute_riccati_gain (Dyn.Ndarray P) (Dyn.Ndarray A) (Dyn.Ndarray B)
    (Dyn.Ndarray R) gamma
  = let D := const_mx (R 0 0) + gamma *: (B^T *m P *m B) in
    if D \in unitmx then Ok (Dyn.Ndarray (gamma *: invmx D *m B^T *m P *m A))
    else Raise LinAlgError.
Proof.
rewrite /Dyn._compute_riccati_gain /Dyn.lift2 /Dyn.lift1.
rewrite !(add_scalar_Ndarray, dyn_rw) inv_Ndarray /=.
by case: ifP => // _; rewrite !dyn_rw.
Qed.

Lemma dyn_riccati_rhs_scalar_R n m (A Q P : 'M[F]_n) (B : 'M[F]_(n, m.+2))
    (R : 'M[F]_1) gamma (K : 'M[F]_(m.+2, n)) :
  Dyn._compute_riccati_rhs (Dyn.Ndarray A) (Dyn.Ndarray B) (Dyn.Ndarray Q)
    (Dyn.Ndarray R) gamma (Dyn.Ndarray K) (Dyn.Ndarray P)
  = Raise ValueError.
Proof. by rewrite /Dyn._compute_riccati_rhs /Dyn.lift2 /Dyn.lift1 !dyn_rw. Qed.

(** X13. A 1 x 1 matrix [R] next to a [B] with two or more columns is not
    rejected.  The gain step broadcasts it: [R[0, 0]] is added to every
    entry of [gamma B^T P B], not only to the diagonal.  With a budget that
    is zero or negative the gain built from that matrix is returned; with a
    positive budget the product [K.T @ R] of the first update raises
    [ValueError], after the first inversion. *)
Theorem dyn_solve_lqr_linear_scalar_R n m (A Q : 'M[F]_n)
    (B : 'M[F]_(n, m.+2)) (R : 'M[F]_1) info (max_iterations : int) :
  let gamma := MDPInfo.gamma info in
  let D := const_mx (R 0 0) + gamma *: (B^T *m 1%:M *m B) in
  Dyn.solve_lqr_linear
    (Dyn.LQR.Make (Dyn.Ndarray A) (Dyn.Ndarray B) (Dyn.Ndarray Q)
       (Dyn.Ndarray R) info) max_iterations
  = if D \in unitmx
    then if max_iterations <= 0
         then Ok (Dyn.Ndarray (gamma *: invmx D *m B^T *m 1%:M *m A))
         else Raise ValueError
    else Raise LinAlgError.
Proof.
move=> gamma D.
rewrite /Dyn.solve_lqr_linear /Dyn.eye /Dyn._parse_lqr.
cbv beta iota delta [Dyn.LQR.A Dyn.LQR.B Dyn.LQR.Q Dyn.LQR.R Dyn.LQR.info
                     Dyn.rows].
rewrite dyn_riccati_gain_scalar_R; cbv zeta; rewrite -/gamma -/D.
case: ifP => // _; rewrite bind_Ok.
case: ifP => [le0|]; first by rewrite dyn_riccati_while_nonpositive.
case: max_iterations => [[|k]|k] // _.
by rewrite [Dyn.riccati_while _ _ _ _ _ _ _ _ _ _]/= dyn_riccati_rhs_scalar_R.
Qed.

End ShapeBehaviour.

(** ** The Bellman equation *)

Section Bellman.

Variables (F : fieldType) (n m : nat).

Implicit Types (lqr : LQR.t F n m) (K : 'M[F]_(m, n)) (P : 'M[F]_n).
Implicit Types (x : 'cV[F]_n) (u : 'cV[F]_m).

Lemma Q_matrix_bellman lqr P x u :
  let A := LQR.A lqr in
  let B := LQR.B lqr in
  (col_mx x u)^T *m Q_matrix lqr P *m col_mx x u
  = x^T *m LQR.Q lqr *m x + u^T *m LQR.R lqr *m u
    + MDPInfo.gamma (LQR.info lqr)
      *: ((A *m x + B *m u)^T *m P *m (A *m x + B *m u)).
Proof.
rewrite /Q_matrix /=.
set A := LQR.A lqr; set B := LQR.B lqr; set Q := LQR.Q lqr; set R := LQR.R lqr.
set g := MDPInfo.gamma _.
rewrite tr_col_mx mul_row_block mul_row_col.
rewrite !linearD /= !trmx_mul.
rewrite !(mulmxDl, mulmxDr, scalerDr) /=.
rewrite -!scalemxAl -!scalemxAr -!scalemxAl !mulmxA !addrA.
congr (_ + _); rewrite addrAC; congr (_ + _); rewrite addrAC; congr (_ + _).
by rewrite addrAC.
Qed.

(** X14. The Bellman equation between the two evaluators: at a state [x]
    and any action [u], [compute_lqr_Q] returns the reward
    [- (x^T Q x + u^T R u)] plus the discounted value that [compute_lqr_V]
    returns at the next state [A x + B u]. *)
Theorem compute_lqr_Q_bellman x u lqr K :
  lyapunov_M lqr K \in unitmx ->
  exists q v,
    [/\ compute_lqr_Q (col_mx x u) lqr K = Ok q,
        compute_lqr_V (LQR.A lqr *m x + LQR.B lqr *m u) lqr K = Ok v
      & q = - item (x^T *m LQR.Q lqr *m x + u^T *m LQR.R lqr *m u)
            + MDPInfo.gamma (LQR.info lqr) * v].
Proof.
move=> unitM; do 2!eexists; split.
- exact: compute_lqr_Q_unit.
- exact: compute_lqr_V_unit.
by rewrite /item !mulNmx Q_matrix_bellman !mxE mulrN opprD.
Qed.

End Bellman.

Lemma compute_lqr_Q_bellman_witness :
  lyapunov_M scalar_lqr scalar_K \in unitmx
  /\ exists q v,
       [/\ compute_lqr_Q (col_mx scalar_x scalar_x) scalar_lqr scalar_K = Ok q,
           compute_lqr_V (LQR.A scalar_lqr *m scalar_x
                          + LQR.B scalar_lqr *m scalar_x)
             scalar_lqr scalar_K = Ok v
         & q = - item (scalar_x^T *m LQR.Q scalar_lqr *m scalar_x
                       + scalar_x^T *m LQR.R scalar_lqr *m scalar_x)
               + MDPInfo.gamma (LQR.info scalar_lqr) * v].
Proof.
split; first exact: scalar_M_unit.
exact: (compute_lqr_Q_bellman scalar_x scalar_x scalar_M_unit).
Defined.

(** ** The matrices of the linear system and their derivatives *)

Section IntermediateResults.

Variables (F : fieldType) (n m : nat).

Implicit Types (lqr : LQR.t F n m) (K : 'M[F]_(m, n)) (X : 'M[F]_n).
Implicit Types (i : 'I_(m * n)).

(** Sums of the same terms in another order. *)
Lemma sum_nth_perm (V : zmodType) (l : seq V) (s1 s2 : seq nat) :
  perm_eq s1 s2 -> \sum_(i <- s1) nth 0 l i = \sum_(i <- s2) nth 0 l i.
Proof. by move=> eq12; apply: perm_big. Qed.

Lemma kronZl p q r s a (X : 'M[F]_(p, q)) (Y : 'M[F]_(r, s)) :
  kron (a *: X) Y = a *: kron X Y.
Proof. by apply/matrixP=> t u; rewrite !mxE mulrA. Qed.

Lemma kronZr p q r s a (X : 'M[F]_(p, q)) (Y : 'M[F]_(r, s)) :
  kron X (a *: Y) = a *: kron X Y.
Proof. by apply/matrixP=> t u; rewrite !mxE mulrCA. Qed.

(** X15. The matrix [M] built by [_compute_lqr_intermediate_results] from
    Kronecker products is the discounted Lyapunov operator on flattened
    matrices: [M vec(X) = vec(X - gamma (A - B K)^T X (A - B K))]. *)
Theorem intermediate_results_operator K (A : 'M[F]_n) (B : 'M[F]_(n, m))
    (Q : 'M[F]_n) (R : 'M[F]_m) (gamma : F) X :
  (_compute_lqr_intermediate_results K A B Q R gamma).2 *m reshape_vec X
  = reshape_vec (X - gamma *: ((A - B *m K)^T *m X *m (A - B *m K))).
Proof.
exact: (lyapunov_M_vec (LQR.Make A B Q R (MDPInfo.Make gamma)) K X).
Qed.

(** X16. What [_compute_lqr_intermediate_results_diff] returns for the
    index [i] are the first-order coefficients of [L] and [M] along the
    [i]-th entry of [K] (in row-major order): moving that entry by [t]
    changes [L] and [M] by [t dL_i] and [t dM_i], up to the terms in [t^2]
    given here. *)
Theorem intermediate_results_diff_first_order K (A : 'M[F]_n)
    (B : 'M[F]_(n, m)) (Q : 'M[F]_n) (R : 'M[F]_m) (gamma : F) i (t : F) :
  let dK : 'M[F]_(m, n) := delta_mx (unflat_row i) (unflat_col i) in
  let LM := _compute_lqr_intermediate_results K A B Q R gamma in
  let dLM := _compute_lqr_intermediate_results_diff K A B R gamma i in
  _compute_lqr_intermediate_results (K + t *: dK) A B Q R gamma
  = (LM.1 + t *: dLM.1 + t ^+ 2 *: (dK^T *m R *m dK),
     LM.2 + t *: dLM.2
     - (t ^+ 2 * gamma) *: kron (dK^T *m B^T) (dK^T *m B^T)).
Proof.
move=> dK LM dLM.
have -> : dLM = (gradient_dL (LQR.Make A B Q R (MDPInfo.Make gamma)) K i,
                 gradient_dM (LQR.Make A B Q R (MDPInfo.Make gamma)) K i).
  exact: (intermediate_results_diffE (LQR.Make A B Q R (MDPInfo.Make gamma))).
rewrite /LM /_compute_lqr_intermediate_results /gradient_dL /gradient_dM /=.
rewrite -/dK.
set kb := K^T *m B^T; set dkb := dK^T *m B^T.
have -> : (K + t *: dK)^T *m B^T = kb + t *: dkb.
  by rewrite linearD /= linearZ /= mulmxDl -scalemxAl.
congr pair.
  rewrite [(K + _)^T]linearD /= [(t *: dK)^T]linearZ /= -/dK.
  rewrite !(mulmxDl, mulmxDr) -!scalemxAl -!scalemxAr !scalerDr scalerA -expr2.
  by rewrite -!addrA.
rewrite !(kronDl, kronDr, kronZl, kronZr) scalerA -expr2.
rewrite !(scalerDr, scalerBr, scalerN, scalerA, opprD, opprB, opprK).
rewrite [t * gamma]mulrC [t ^+ 2 * gamma]mulrC -!addrA.
set o : 'M[F]_(n * n) := 1%:M.
set a0 := gamma *: kron A^T A^T; set b := gamma *: kron A^T kb.
set b' := (gamma * t) *: kron A^T dkb; set c := gamma *: kron kb A^T.
set c' := (gamma * t) *: kron dkb A^T; set d := gamma *: kron kb kb.
set e := (gamma * t) *: kron kb dkb; set f := (gamma * t) *: kron dkb kb.
set h := (gamma * t ^+ 2) *: kron dkb dkb.
have := @sum_nth_perm _ [:: o; - a0; b; b'; c; c'; - d; - e; - f; - h]
          [:: 0; 1; 2; 3; 4; 5; 6; 7; 8; 9]%N
          [:: 0; 1; 2; 4; 6; 3; 5; 8; 7; 9]%N isT.
by rewrite !big_cons !big_nil /= !addr0.
Qed.

End IntermediateResults.

(** ** Instances *)

(** A scalar problem on the boundary: [A = 2] with discount 1/4, so that
    [gamma A^2 = 1]. *)
Definition boundary_lqr : LQR.t rat 1 1 :=
  LQR.Make (2%:Q)%:M 1%:M 1%:M 1%:M (MDPInfo.Make (1%:Q / 4%:Q)).

(** A descriptor whose [B] has two rows next to a 1 x 1 matrix [Q]. *)
Definition tall_B_lqr : Dyn.LQR.t rat :=
  Dyn.LQR.Make (Dyn.Ndarray (1%:M : 'M[rat]_1))
    (Dyn.Ndarray (const_mx 1 : 'M[rat]_(2, 1)))
    (Dyn.Ndarray (1%:M : 'M[rat]_1)) (Dyn.Ndarray (1%:M : 'M[rat]_1))
    (MDPInfo.Make (9%:Q / 10%:Q)).

Lemma compute_lqr_P_fixed_point_witness :
  lyapunov_M scalar_lqr scalar_K \in unitmx
  /\ (_compute_riccati_rhs (LQR.A scalar_lqr) (LQR.B scalar_lqr)
        (LQR.Q scalar_lqr) (LQR.R scalar_lqr)
        (MDPInfo.gamma (LQR.info scalar_lqr)) scalar_K
        (value_matrix scalar_lqr scalar_K)
      = value_matrix scalar_lqr scalar_K
      <-> compute_lqr_P scalar_lqr scalar_K
          = Ok (value_matrix scalar_lqr scalar_K)).
Proof.
split; first exact: scalar_M_unit.
exact: (compute_lqr_P_fixed_point (value_matrix scalar_lqr scalar_K)
          scalar_M_unit).
Defined.


Lemma boundary_fixed :
  (1%:M : 'M[rat]_1)
  = MDPInfo.gamma (LQR.info boundary_lqr)
    *: ((closed_loop boundary_lqr 0)^T *m 1%:M *m closed_loop boundary_lqr 0).
Proof.
rewrite /closed_loop /= mulmx0 subr0 tr_scalar_mx mulmx1 -scalar_mxM.
by rewrite scale_scalar_mx; congr (_%:M).
Qed.

Lemma compute_lqr_P_singular_direction_witness :
  [/\ (1%:M : 'M[rat]_1) != 0,
      (1%:M : 'M[rat]_1)
      = MDPInfo.gamma (LQR.info boundary_lqr)
        *: ((closed_loop boundary_lqr 0)^T *m 1%:M
            *m closed_loop boundary_lqr 0)
    & compute_lqr_P boundary_lqr 0 = Raise LinAlgError].
Proof.
have neq0 : (1%:M : 'M[rat]_1) != 0 by rewrite oner_eq0.
split; [exact: neq0 | exact: boundary_fixed |].
exact: (compute_lqr_P_singular_direction neq0 boundary_fixed).
Defined.

Lemma scalar_sym : (1%:M : 'M[rat]_1)^T = 1%:M.
Proof. exact: trmx1. Qed.

Lemma compute_lqr_Q_matrix_symmetric_witness :
  [/\ (LQR.Q scalar_lqr)^T = LQR.Q scalar_lqr,
      (LQR.R scalar_lqr)^T = LQR.R scalar_lqr,
      lyapunov_M scalar_lqr scalar_K \in unitmx
    & exists2 M, _compute_lqr_Q_matrix scalar_lqr scalar_K = Ok M & M^T = M].
Proof.
split; [exact: scalar_sym | exact: scalar_sym | exact: scalar_M_unit |].
exact: (@compute_lqr_Q_matrix_symmetric _ _ _ scalar_lqr scalar_K scalar_sym
          scalar_sym scalar_M_unit).
Defined.

Lemma riccati_gain_greedy_witness :
  lyapunov_M scalar_lqr scalar_K \in unitmx
  /\ exists2 M, _compute_lqr_Q_matrix scalar_lqr scalar_K = Ok M
       & _compute_riccati_gain (value_matrix scalar_lqr scalar_K)
           (LQR.A scalar_lqr) (LQR.B scalar_lqr) (LQR.R scalar_lqr)
           (MDPInfo.gamma (LQR.info scalar_lqr))
         = if drsubmx M \in unitmx then Ok (invmx (drsubmx M) *m dlsubmx M)
           else Raise LinAlgError.
Proof.
split; first exact: scalar_M_unit.
exact: (riccati_gain_greedy scalar_M_unit).
Defined.

Lemma compute_lqg_Q_mean_action_witness :
  [/\ MDPInfo.gamma (LQR.info scalar_lqr) != 1,
      lyapunov_M scalar_lqr scalar_K \in unitmx
    & exists P v,
        [/\ compute_lqr_P scalar_lqr scalar_K = Ok P,
            compute_lqg_V scalar_x scalar_lqr scalar_K scalar_Sigma = Ok v
          & compute_lqg_Q (col_mx scalar_x (- (scalar_K *m scalar_x)))
              scalar_lqr scalar_K scalar_Sigma
            = Ok (v + \tr (scalar_Sigma
                           *m (LQR.R scalar_lqr
                               + MDPInfo.gamma (LQR.info scalar_lqr)
                                 *: (LQR.B scalar_lqr)^T *m P
                                 *m LQR.B scalar_lqr)))]].
Proof.
split; [exact: scalar_gamma_neq1 | exact: scalar_M_unit |].
exact: (compute_lqg_Q_mean_action scalar_x scalar_Sigma scalar_gamma_neq1
          scalar_M_unit).
Defined.

(** The only entry of a 1 x 1 gain. *)
Definition scalar_i : 'I_(1 * 1) := ord0.

Lemma gradient_dP_lyapunov_witness :
  lyapunov_M scalar_lqr scalar_K \in unitmx
  /\ exists2 P, compute_lqr_P scalar_lqr scalar_K = Ok P
       & gradient_dP scalar_lqr scalar_K scalar_i
         = gradient_dL scalar_lqr scalar_K scalar_i
           + MDPInfo.gamma (LQR.info scalar_lqr)
             *: ((LQR.A scalar_lqr - LQR.B scalar_lqr *m scalar_K)^T
                 *m gradient_dP scalar_lqr scalar_K scalar_i
                 *m (LQR.A scalar_lqr - LQR.B scalar_lqr *m scalar_K)
                 - (LQR.B scalar_lqr *m gradient_dK rat scalar_i)^T *m P
                   *m (LQR.A scalar_lqr - LQR.B scalar_lqr *m scalar_K)
                 - (LQR.A scalar_lqr - LQR.B scalar_lqr *m scalar_K)^T *m P
                   *m (LQR.B scalar_lqr *m gradient_dK rat scalar_i)).
Proof.
split; first exact: scalar_M_unit.
exact: (@gradient_dP_lyapunov _ _ _ scalar_lqr scalar_K scalar_i scalar_M_unit).
Defined.

Lemma riccati_while_symmetric_witness :
  [/\ (LQR.Q scalar_lqr)^T = LQR.Q scalar_lqr,
      (LQR.R scalar_lqr)^T = LQR.R scalar_lqr,
      (1%:M : 'M[rat]_1)^T = 1%:M,
      riccati_while 1 (LQR.A scalar_lqr) (LQR.B scalar_lqr)
        (LQR.Q scalar_lqr) (LQR.R scalar_lqr)
        (MDPInfo.gamma (LQR.info scalar_lqr)) 0 0 1%:M scalar_K
      = Ok (0, 1%:M, scalar_K)
    & (1%:M : 'M[rat]_1)^T = 1%:M].
Proof.
have loop0 : riccati_while 1 (LQR.A scalar_lqr) (LQR.B scalar_lqr)
               (LQR.Q scalar_lqr) (LQR.R scalar_lqr)
               (MDPInfo.gamma (LQR.info scalar_lqr)) 0 0 1%:M scalar_K
             = Ok (0, 1%:M, scalar_K) by [].
split; [exact: scalar_sym | exact: scalar_sym | exact: scalar_sym
       | exact: loop0 |].
exact: (@riccati_while_symmetric _ _ _ scalar_lqr 1 0 0 1%:M scalar_K
          (0, 1%:M, scalar_K) scalar_sym scalar_sym scalar_sym loop0).
Defined.

Lemma solve_lqr_linear_nonpositive_budget_witness :
  (-1 : int) <= 0
  /\ solve_lqr_linear scalar_lqr (-1)
     = if riccati_denominator scalar_lqr 1%:M \in unitmx
       then Ok (riccati_gain scalar_lqr 1%:M) else Raise LinAlgError.
Proof.
have le0 : (-1 : int) <= 0 by [].
split; first exact: le0.
exact: (solve_lqr_linear_nonpositive_budget scalar_lqr le0).
Defined.

Lemma dyn_solve_lqr_linear_rows_mismatch_witness :
  Dyn.rows (Dyn.LQR.B tall_B_lqr) != Dyn.rows (Dyn.LQR.Q tall_B_lqr)
  /\ Dyn.solve_lqr_linear tall_B_lqr 3 = Raise ValueError.
Proof.
have neq : Dyn.rows (Dyn.LQR.B tall_B_lqr) != Dyn.rows (Dyn.LQR.Q tall_B_lqr).
  by [].
split; first exact: neq.
exact: (dyn_solve_lqr_linear_rows_mismatch 3 neq).
Defined.

Lemma dyn_solve_lqr_linear_zero_budget_witness :
  (0 : int) <= 0
  /\ Dyn.solve_lqr_linear mismatched_lqr 0
     = if (1%:M : 'M[rat]_1) + (9%:Q / 10%:Q)
          *: ((1%:M : 'M[rat]_1)^T *m 1%:M *m 1%:M) \in unitmx
       then Ok (Dyn.Ndarray
                  ((9%:Q / 10%:Q)
                   *: invmx ((1%:M : 'M[rat]_1) + (9%:Q / 10%:Q)
                             *: ((1%:M : 'M[rat]_1)^T *m 1%:M *m 1%:M))
                   *m (1%:M : 'M[rat]_1)^T *m 1%:M
                   *m (const_mx 1 : 'M[rat]_(1, 2))))
       else Raise LinAlgError.
Proof.
have le0 : (0 : int) <= 0 by [].
split; first exact: le0.
exact: (dyn_solve_lqr_linear_zero_budget (const_mx 1 : 'M[rat]_(1, 2))
          (1%:M : 'M[rat]_1) (1%:M : 'M[rat]_1) (1%:M : 'M[rat]_1)
          (MDPInfo.Make (9%:Q / 10%:Q)) le0).
Defined.

(** ** The Riccati recursion *)

Section RiccatiRecursion.

Variables (F : fieldType) (n m : nat).

Implicit Types (lqr : LQR.t F n m) (K : 'M[F]_(m, n)) (P : 'M[F]_n).

(** X17. One pass of the loop body of [solve_lqr_linear] is the discounted
    Riccati recursion: with [K] the gain the code computes from [P], and
    [R + gamma B^T P B] nonsingular, the five-term update of
    [_compute_riccati_rhs] is
    [Q + gamma A^T P A - gamma^2 A^T P B (R + gamma B^T P B)^-1 B^T P A]. *)
Theorem riccati_rhs_recursion lqr P :
  let A := LQR.A lqr in
  let B := LQR.B lqr in
  let gamma := MDPInfo.gamma (LQR.info lqr) in
  let D := LQR.R lqr + gamma *: (B^T *m P *m B) in
  D \in unitmx ->
  exists2 K, _compute_riccati_gain P A B (LQR.R lqr) gamma = Ok K
    & _compute_riccati_rhs A B (LQR.Q lqr) (LQR.R lqr) gamma K P
      = LQR.Q lqr + gamma *: (A^T *m P *m A)
        - gamma ^+ 2 *: (A^T *m P *m B *m invmx D *m B^T *m P *m A).
Proof.
move=> A B gamma D unitD.
exists (riccati_gain lqr P).
  by rewrite compute_riccati_gainE /riccati_denominator unitD.
rewrite /_compute_riccati_rhs -/A -/B -/gamma.
set K := riccati_gain lqr P.
have DK : D *m K = gamma *: (B^T *m P *m A).
  rewrite /K /riccati_gain -/gamma -/A -/B /riccati_denominator -/gamma -/B.
  by rewrite -/D -scalemxAr mulKVmx.
have -> : K^T *m LQR.R lqr *m K
          = K^T *m D *m K - gamma *: (K^T *m B^T *m P *m B *m K).
  by rewrite /D mulmxDr mulmxDl -scalemxAr -scalemxAl !mulmxA addrK.
rewrite -[K^T *m D *m K]mulmxA DK -scalemxAr !mulmxA.
rewrite !(scalerDr, scalerBr, scalerN) -!addrA; congr (_ + (_ + _)).
rewrite [_ + (_ - _)]addrCA subrr addr0 addrCA addNr addr0; congr (- _).
rewrite /K /riccati_gain -/gamma -/A -/B /riccati_denominator -/gamma -/B -/D.
by rewrite -!scalemxAr scalerA -expr2 !mulmxA.
Qed.

Lemma riccati_P_stationary lqr (j i : nat) :
  riccati_P lqr j.+1 = riccati_P lqr j -> (j <= i)%N ->
  riccati_P lqr i = riccati_P lqr j.
Proof.
move=> fixP; elim: i => [|i IHi]; first by rewrite leqn0 => /eqP->.
rewrite leq_eqVlt ltnS => /orP[/eqP-> //|le_ji].
by rewrite /riccati_P iterS -/(riccati_P lqr i) IHi // -fixP.
Qed.

(** X18. The solver has no convergence test, but a budget beyond a fixed
    point changes nothing: if the [j]-th update leaves the value matrix
    unchanged, every budget [k >= j] gives the outcome of the budget [j]. *)
Theorem solve_lqr_linear_stationary lqr (j k : nat) :
  riccati_P lqr j.+1 = riccati_P lqr j -> (j <= k)%N ->
  solve_lqr_linear lqr k%:Z = solve_lqr_linear lqr j%:Z.
Proof.
move=> fixP le_jk; rewrite !solve_lqr_linearE (riccati_P_stationary fixP le_jk).
set inv_ok := fun i => _.
suff -> : all inv_ok (iota 0 k.+1) = all inv_ok (iota 0 j.+1) by [].
rewrite -(subnKC le_jk) -addSn iotaD all_cat add0n.
case all_j: (all inv_ok (iota 0 j.+1)) => //; rewrite andTb.
apply/allP=> i; rewrite mem_iota => /andP[lt_ji _].
rewrite /inv_ok (riccati_P_stationary fixP (ltnW lt_ji)).
have in_j : j \in iota 0 j.+1 by rewrite mem_iota /= add0n.
exact: (elimT allP all_j j in_j).
Qed.

End RiccatiRecursion.

(** A scalar problem that does not move: [A = 0]. *)
Definition still_lqr : LQR.t rat 1 1 :=
  LQR.Make 0 1%:M 1%:M 1%:M (MDPInfo.Make (9%:Q / 10%:Q)).

Lemma still_fixed : riccati_P still_lqr 1 = riccati_P still_lqr 0.
Proof.
rewrite /riccati_P /= /riccati_update /riccati_gain /=.
by rewrite !(mulmx0, mul0mx, trmx0, scaler0, subr0, addr0).
Qed.

Lemma riccati_rhs_recursion_witness :
  LQR.R scalar_lqr
  + MDPInfo.gamma (LQR.info scalar_lqr)
    *: ((LQR.B scalar_lqr)^T *m 1%:M *m LQR.B scalar_lqr) \in unitmx
  /\ exists2 K,
       _compute_riccati_gain 1%:M (LQR.A scalar_lqr) (LQR.B scalar_lqr)
         (LQR.R scalar_lqr) (MDPInfo.gamma (LQR.info scalar_lqr)) = Ok K
       & _compute_riccati_rhs (LQR.A scalar_lqr) (LQR.B scalar_lqr)
           (LQR.Q scalar_lqr) (LQR.R scalar_lqr)
           (MDPInfo.gamma (LQR.info scalar_lqr)) K 1%:M
         = LQR.Q scalar_lqr
           + MDPInfo.gamma (LQR.info scalar_lqr)
             *: ((LQR.A scalar_lqr)^T *m 1%:M *m LQR.A scalar_lqr)
           - MDPInfo.gamma (LQR.info scalar_lqr) ^+ 2
             *: ((LQR.A scalar_lqr)^T *m 1%:M *m LQR.B scalar_lqr
                 *m invmx (LQR.R scalar_lqr
                           + MDPInfo.gamma (LQR.info scalar_lqr)
                             *: ((LQR.B scalar_lqr)^T *m 1%:M
                                 *m LQR.B scalar_lqr))
                 *m (LQR.B scalar_lqr)^T *m 1%:M *m LQR.A scalar_lqr).
Proof.
split; first exact: mismatched_riccati_unit.
exact: (@riccati_rhs_recursion _ _ _ scalar_lqr 1%:M mismatched_riccati_unit).
Defined.

Lemma solve_lqr_linear_stationary_witness :
  [/\ riccati_P still_lqr 1 = riccati_P still_lqr 0, (0 <= 5)%N
    & solve_lqr_linear still_lqr 5%:Z = solve_lqr_linear still_lqr 0%:Z].
Proof.
have le05 : (0 <= 5)%N by [].
split; [exact: still_fixed | exact: le05 |].
exact: (solve_lqr_linear_stationary still_fixed le05).
Defined.

(** * The MuJoCo viewer: mouse callbacks

    [MujocoGlfwViewer] of [utils/mujoco/viewer.py] keeps three button flags
    and the last cursor position.  Its callbacks read the state of the GLFW
    window and ask MuJoCo to move the camera.  Here the window is a record
    of what the callbacks read from it, and a request to MuJoCo is a value:
    a callback maps the viewer to the viewer after it, with the request it
    made, or the exception it raised.  Cursor coordinates are numbers of a
    field of characteristic zero. *)

Module Viewer.

Section Callbacks.

Variable F : numFieldType.

(** What the callbacks read through [glfw]: for a button or a key, whether
    its state is [glfw.PRESS]. *)
Record glfw := Glfw {
  get_mouse_button_left : bool;
  get_mouse_button_right : bool;
  get_mouse_button_middle : bool;
  get_cursor_pos : F * F;
  get_window_size : int * int;
  get_key_left_shift : bool;
  get_key_right_shift : bool
}.

(** [mujoco.mjtMouse], the actions used here. *)
Inductive mjtMouse :=
  | mjMOUSE_ROTATE_V
  | mjMOUSE_ROTATE_H
  | mjMOUSE_MOVE_V
  | mjMOUSE_MOVE_H
  | mjMOUSE_ZOOM.

(** A call [mujoco.mjv_moveCamera(model, action, reldx, reldy, scene,
    camera)]. *)
Record mjv_moveCamera := MoveCamera {
  action : mjtMouse;
  reldx : F;
  reldy : F
}.

(** The attributes of the viewer that the mouse callbacks use. *)
Record MujocoGlfwViewer := Self {
  button_left : bool;
  button_right : bool;
  button_middle : bool;
  last_x : F;
  last_y : F
}.

(** The attributes set by [__init__]. *)
Definition __init__ : MujocoGlfwViewer := Self false false false 0 0.

Definition mouse_button (window : glfw) (self : MujocoGlfwViewer) :
    MujocoGlfwViewer :=
  Self (get_mouse_button_left window) (get_mouse_button_right window)
       (get_mouse_button_middle window)
       (get_cursor_pos window).1 (get_cursor_pos window).2.

(** [mouse_move]: the viewer after the call, and the request made ([None]
    for the early [return]) or the exception raised.  The attributes are
    assigned before the divisions, so they are kept when a division
    raises. *)
Definition mouse_move (window : glfw) (self : MujocoGlfwViewer)
    (x_pos y_pos : F) : MujocoGlfwViewer * result (option mjv_moveCamera) :=
  if [&& ~~ button_left self, ~~ button_right self & ~~ button_middle self]
  then (self, Ok None)
  else
    let dx := x_pos - last_x self in
    let dy := y_pos - last_y self in
    let self1 := Self (button_left self) (button_right self)
                      (button_middle self) x_pos y_pos in
    let '(width, height) := get_window_size window in
    let mod_shift := get_key_left_shift window || get_key_right_shift window in
    let action :=
      if button_right self1 then
        if mod_shift then mjMOUSE_MOVE_H else mjMOUSE_MOVE_V
      else if button_left self1 then
        if mod_shift then mjMOUSE_ROTATE_H else mjMOUSE_ROTATE_V
      else mjMOUSE_ZOOM in
    (self1,
     let! rx := truediv dx width%:~R in
     let! ry := truediv dy height%:~R in
     Ok (Some (MoveCamera action rx ry))).

(** [keyboard] has the body [...]. *)
Definition keyboard (self : MujocoGlfwViewer) : MujocoGlfwViewer := self.

Definition scroll (self : MujocoGlfwViewer) (x_offset y_offset : F) :
    MujocoGlfwViewer * mjv_moveCamera :=
  (self, MoveCamera mjMOUSE_ZOOM 0 (5%:R / 100%:R * y_offset)).

(** The cursor moving through the positions [ps], [mouse_move] called at
    each: the viewer at the end and the requests made, up to the first
    exception. *)
Fixpoint mouse_moves (window : glfw) (self : MujocoGlfwViewer)
    (ps : seq (F * F)) : MujocoGlfwViewer * result (seq mjv_moveCamera) :=
  if ps is p :: ps' then
    let '(self1, r) := mouse_move window self p.1 p.2 in
    match r with
    | Raise e => (self1, Raise e)
    | Ok c =>
        let '(self2, rs) := mouse_moves window self1 ps' in
        (self2, let! cs := rs in Ok (seq.cat (seq_of_opt c) cs))
    end
  else (self, Ok [::]).

End Callbacks.

End Viewer.

Section ViewerTheory.

Variable F : numFieldType.

Import Viewer.

Implicit Types (window : glfw F) (self : MujocoGlfwViewer F).
Implicit Types (ps : seq (F * F)).

(** The buttons the viewer believes to be down. *)
Definition dragging self : bool :=
  [|| button_left self, button_right self | button_middle self].

Lemma mouse_move_idle window self x y :
  ~~ dragging self -> mouse_move window self x y = (self, Ok None).
Proof.
rewrite /dragging /mouse_move.
by case: (button_left self) (button_right self) (button_middle self)
  => [] [] [].
Qed.

Lemma mouse_move_drag window self x y :
  dragging self ->
  (get_window_size window).1 != 0 -> (get_window_size window).2 != 0 ->
  exists a,
    mouse_move window self x y
    = (Self (button_left self) (button_right self) (button_middle self) x y,
       Ok (Some (MoveCamera a
                   ((x - last_x self) / (get_window_size window).1%:~R)
                   ((y - last_y self) / (get_window_size window).2%:~R)))).
Proof.
rewrite /dragging /mouse_move.
case: (get_window_size window) => width height /= down w0 h0.
have -> : [&& ~~ button_left self, ~~ button_right self
             & ~~ button_middle self] = false.
  by case: (button_left self) (button_right self) (button_middle self) down
    => [] [] [].
rewrite !truediv_neq0 ?intr_eq0 //=.
by eexists.
Qed.

(** X19. Until a button event has been seen, cursor motion does nothing:
    after [__init__], or whenever the three button flags are off, any
    sequence of [mouse_move] calls leaves the viewer as it is, makes no
    request to MuJoCo and raises nothing, whatever the window is. *)
Theorem mouse_moves_idle window self ps :
  ~~ dragging self -> mouse_moves window self ps = (self, Ok [::]).
Proof.
move=> idle; elim: ps => [|p ps IHps] //=.
by rewrite mouse_move_idle // IHps.
Qed.

(** X20. With a button down and a window of nonzero width and height, a
    drag through the positions [ps] loses no motion: [mouse_move] makes one
    request per position, the deltas of the requests add up to the
    displacement from the last recorded position to the last of [ps],
    divided by the window size, and that position is the one recorded. *)
Theorem mouse_moves_drag window self ps :
  let p := last (last_x self, last_y self) ps in
  let width := (get_window_size window).1 in
  let height := (get_window_size window).2 in
  dragging self -> width != 0 -> height != 0 ->
  exists cs,
    [/\ mouse_moves window self ps
        = (Self (button_left self) (button_right self) (button_middle self)
             p.1 p.2, Ok cs),
        size cs = size ps,
        \sum_(c <- cs) reldx c = (p.1 - last_x self) / width%:~R
      & \sum_(c <- cs) reldy c = (p.2 - last_y self) / height%:~R].
Proof.
move=> p width height down w0 h0; rewrite {}/p.
elim: ps self down => [|[x y] ps IHps] self down /=.
  exists [::]; split=> //; rewrite ?big_nil ?subrr ?mul0r //.
  by case: self down.
have [a ->] := mouse_move_drag x y down w0 h0.
set self1 := Self _ _ _ x y.
have down1 : dragging self1 by [].
have [cs [-> size_cs sum_x sum_y]] := IHps self1 down1.
exists (MoveCamera a ((x - last_x self) / width%:~R)
          ((y - last_y self) / height%:~R) :: cs).
split=> //=; rewrite ?size_cs // big_cons ?sum_x ?sum_y /= -mulrDl.
  by congr (_ / _); rewrite addrC subrKA.
by congr (_ / _); rewrite addrC subrKA.
Qed.

(** X21. In a window of zero width or zero height, [mouse_move] with a
    button down raises [ZeroDivisionError] and makes no request; the
    position has been recorded before the division, so the viewer keeps
    it. *)
Theorem mouse_move_zero_size window self x y :
  dragging self ->
  ((get_window_size window).1 == 0) || ((get_window_size window).2 == 0) ->
  mouse_move window self x y
  = (Self (button_left self) (button_right self) (button_middle self) x y,
     Raise ZeroDivisionError).
Proof.
rewrite /dragging /mouse_move.
case: (get_window_size window) => width height /= down zero.
have -> : [&& ~~ button_left self, ~~ button_right self
             & ~~ button_middle self] = false.
  by case: (button_left self) (button_right self) (button_middle self) down
    => [] [] [].
congr pair; rewrite /truediv !intr_eq0.
by case: (width == 0) zero => //= ->.
Qed.

(** X22. A press followed by a [mouse_move] at the position of the press
    asks for no displacement: [mouse_button] records the cursor position,
    so both deltas of the request are zero. *)
Theorem mouse_button_then_move window window' self :
  let self1 := mouse_button window self in
  dragging self1 ->
  (get_window_size window').1 != 0 -> (get_window_size window').2 != 0 ->
  exists a,
    (mouse_move window' self1 (get_cursor_pos window).1
       (get_cursor_pos window).2).2
    = Ok (Some (MoveCamera a 0 0)).
Proof.
move=> self1 down w0 h0.
have [a ->] := mouse_move_drag (get_cursor_pos window).1
                 (get_cursor_pos window).2 down w0 h0.
by exists a; rewrite /= !subrr !mul0r.
Qed.

End ViewerTheory.

(** A window of 2 x 2 pixels with the left button down and the cursor at
    (1, 1); the same over a window of width zero; a viewer that has seen
    the left button go down at the origin. *)
Definition pressed_window : Viewer.glfw rat :=
  Viewer.Glfw true false false (1, 1) (2, 2) false false.

Definition flat_window : Viewer.glfw rat :=
  Viewer.Glfw true false false (1, 1) (0, 5) false false.

Definition held : Viewer.MujocoGlfwViewer rat :=
  Viewer.Self true false false 0 0.

Lemma mouse_moves_idle_witness :
  ~~ dragging (Viewer.__init__ rat)
  /\ Viewer.mouse_moves flat_window (Viewer.__init__ rat) [:: (1, 1); (2, 3)]
     = (Viewer.__init__ rat, Ok [::]).
Proof.
have idle : ~~ dragging (Viewer.__init__ rat) by [].
split; first exact: idle.
exact: (mouse_moves_idle flat_window [:: (1, 1); (2, 3)] idle).
Defined.

Lemma mouse_moves_drag_witness :
  [/\ dragging held, (Viewer.get_window_size pressed_window).1 != 0,
      (Viewer.get_window_size pressed_window).2 != 0
    & exists cs,
        [/\ Viewer.mouse_moves pressed_window held [:: (1, 1); (2, 3)]
            = (Viewer.Self true false false 2 3, Ok cs),
            size cs = 2,
            \sum_(c <- cs) Viewer.reldx c = (2 - 0) / 2%:~R
          & \sum_(c <- cs) Viewer.reldy c = (3 - 0) / 2%:~R]].
Proof.
have down : dragging held by [].
have w0 : (Viewer.get_window_size pressed_window).1 != 0 by [].
have h0 : (Viewer.get_window_size pressed_window).2 != 0 by [].
split; [exact: down | exact: w0 | exact: h0 |].
exact: (@mouse_moves_drag _ pressed_window held [:: (1, 1); (2, 3)] down w0 h0).
Defined.

Lemma mouse_move_zero_size_witness :
  [/\ dragging held,
      ((Viewer.get_window_size flat_window).1 == 0)
      || ((Viewer.get_window_size flat_window).2 == 0)
    & Viewer.mouse_move flat_window held 1 1
      = (Viewer.Self true false false 1 1, Raise ZeroDivisionError)].
Proof.
have down : dragging held by [].
have zero : ((Viewer.get_window_size flat_window).1 == 0)
            || ((Viewer.get_window_size flat_window).2 == 0) by [].
split; [exact: down | exact: zero |].
exact: (@mouse_move_zero_size _ flat_window held 1 1 down zero).
Defined.

Lemma mouse_button_then_move_witness :
  [/\ dragging (Viewer.mouse_button pressed_window (Viewer.__init__ rat)),
      (Viewer.get_window_size pressed_window).1 != 0,
      (Viewer.get_window_size pressed_window).2 != 0
    & exists a,
        (Viewer.mouse_move pressed_window
           (Viewer.mouse_button pressed_window (Viewer.__init__ rat))
           (Viewer.get_cursor_pos pressed_window).1
           (Viewer.get_cursor_pos pressed_window).2).2
        = Ok (Some (Viewer.MoveCamera a 0 0))].
Proof.
have down :
  dragging (Viewer.mouse_button pressed_window (Viewer.__init__ rat)) by [].
have w0 : (Viewer.get_window_size pressed_window).1 != 0 by [].
have h0 : (Viewer.get_window_size pressed_window).2 != 0 by [].
split; [exact: down | exact: w0 | exact: h0 |].
exact: (@mouse_button_then_move _ pressed_window pressed_window
          (Viewer.__init__ rat) down w0 h0).
Defined.
